(** * The question generator of [app.py], embedded in Rocq

    [EnhancedQuestionGenerator] parses a Python snippet with [ast.parse],
    collects six categories of facts with [ast.walk], renders one question
    per fact through a fixed catalog of templates, removes duplicates with
    [dict.fromkeys] and returns [random.choice] of what is left.

    The parser, [inspect.cleandoc], [str.strip] and the random generator
    belong to the Python library, not to the program: they are the fields
    of class [Library].  The syntax tree, [ast.walk], [ast.get_docstring],
    [str.format], [dict.fromkeys] and [random.choice] are written out.  The
    route [/generate_question] that calls the generator comes after it, over
    the body of the request as Flask parses it. *)

From Stdlib Require Import String Ascii DecimalString Arith Lia Bool List.
From Stdlib Require DecimalNat.
Import ListNotations.
Open Scope string_scope.
Open Scope list_scope.
Set Warnings "-register-all".

(** ** Exceptions and results *)

Module Py.

(** The exception classes that the program can meet. *)
Inductive exn : Type :=
| SyntaxError (msg : string)
| IndexError (msg : string)
| KeyError (key : string)
| ValueError (msg : string)
| OtherError (cls msg : string).

(** [str(e)]: the message of an exception; a [KeyError] prints the [repr]
    of its key. *)
Definition str_exn (e : exn) : string :=
  match e with
  | SyntaxError msg | IndexError msg | ValueError msg | OtherError _ msg => msg
  | KeyError key => "'" ++ key ++ "'"
  end.

(** A computation that returns or raises. *)
Definition result (A : Type) : Type := (exn + A)%type.

Definition ret {A} (x : A) : result A := inr x.
Definition raise {A} (e : exn) : result A := inl e.

Definition bind {A B} (m : result A) (k : A -> result B) : result B :=
  match m with
  | inl e => inl e
  | inr x => k x
  end.

(** [[f x for x in l]] where [f] may raise: the first exception wins. *)
Fixpoint mapM {A B} (f : A -> result B) (l : list A) : result (list B) :=
  match l with
  | [] => ret []
  | x :: rest =>
      bind (f x) (fun y => bind (mapM f rest) (fun ys => ret (y :: ys)))
  end.

(** [str(n)] for a non-negative integer. *)
Definition str_int (n : nat) : string := NilZero.string_of_uint (Nat.to_uint n).

End Py.

Notation "x <- m ;; k" := (Py.bind m (fun x => k))
  (at level 61, m at next level, right associativity).

(** ** The syntax tree of module [ast]

    The classes that the program tests or reads have a constructor of their
    own, with the fields of the class in the order of [_fields]; every other
    class (statements such as [Return] or [Assign], expressions such as
    [BinOp] or [Call], operators, ...) is an [Other] node carrying its class
    name and its child nodes in field order, which is all [ast.walk] sees of
    it.  [ArgumentsNode], [ArgNode], [AliasNode] and [ContextNode] are the
    [arguments], [arg], [alias] and [expr_context] objects as [ast.walk]
    yields them.  Fields that hold no node ([type_comment], [kind]) are left
    out, as is [type_ignores], which [ast.parse] leaves empty; [type_params]
    is empty before Python 3.12.  [lineno] is the attribute of that name. *)

Module Ast.

Inductive expr_context : Type := Load | Store | Del.

(** The value of a [Constant] node. *)
Inductive constant : Type :=
| CStr (s : string)
| CInt (n : nat)
| CBool (b : bool)
| CNone
| CEllipsis
| COther (repr : string).

Record alias : Type := Alias { alias_name : string; asname : option string }.

Inductive node : Type :=
| Module (body : list node)
| FunctionDef (name : string) (args : arguments) (body decorator_list : list node)
    (returns : option node) (type_params : list node) (lineno : nat)
| AsyncFunctionDef (name : string) (args : arguments) (body decorator_list : list node)
    (returns : option node) (type_params : list node) (lineno : nat)
| For (target iter : node) (body orelse : list node) (lineno : nat)
| While (test : node) (body orelse : list node) (lineno : nat)
| If (test : node) (body orelse : list node) (lineno : nat)
| Import (names : list alias) (lineno : nat)
| ImportFrom (module : option string) (names : list alias) (level : nat) (lineno : nat)
| Expr (value : node) (lineno : nat)
| Constant (value : constant) (lineno : nat)
| Name (id : string) (ctx : expr_context) (lineno : nat)
| Other (cls : string) (children : list node)
| ArgumentsNode (a : arguments)
| ArgNode (a : arg)
| AliasNode (a : alias)
| ContextNode (c : expr_context)
with arguments : Type :=
| Arguments (posonlyargs args : list arg) (vararg : option arg)
    (kwonlyargs : list arg) (kw_defaults : list (option node))
    (kwarg : option arg) (defaults : list node)
with arg : Type :=
| Arg (arg_name : string) (annotation : option node) (lineno : nat).

(** [node.args.args] and [arg.arg]. *)
Definition args_args (a : arguments) : list arg :=
  match a with Arguments _ args _ _ _ _ _ => args end.

Definition arg_arg (a : arg) : string :=
  match a with Arg name _ _ => name end.

(** An optional field yields its node when it is not [None]. *)
Definition opt {A} (o : option A) : list A :=
  match o with Some x => [x] | None => [] end.

(** A list field yields its items that are nodes. *)
Definition somes {A} (l : list (option A)) : list A := flat_map opt l.

(** [ast.iter_child_nodes]: the direct child nodes, field by field. *)
Definition iter_child_nodes (n : node) : list node :=
  match n with
  | Module body => body
  | FunctionDef _ a body decorator_list returns type_params _
  | AsyncFunctionDef _ a body decorator_list returns type_params _ =>
      ArgumentsNode a :: body ++ decorator_list ++ opt returns ++ type_params
  | For target iter body orelse _ => target :: iter :: body ++ orelse
  | While test body orelse _ | If test body orelse _ => test :: body ++ orelse
  | Import names _ | ImportFrom _ names _ _ => map AliasNode names
  | Expr value _ => [value]
  | Constant _ _ => []
  | Name _ ctx _ => [ContextNode ctx]
  | Other _ children => children
  | ArgumentsNode (Arguments posonly args vararg kwonly kw_defaults kwarg defaults) =>
      map ArgNode posonly ++ map ArgNode args ++ map ArgNode (opt vararg)
        ++ map ArgNode kwonly ++ somes kw_defaults ++ map ArgNode (opt kwarg)
        ++ defaults
  | ArgNode (Arg _ annotation _) => opt annotation
  | AliasNode _ => []
  | ContextNode _ => []
  end.

(** The number of nodes of a tree, the bound of the loop of [walk]. *)
Fixpoint size (n : node) : nat :=
  match n with
  | Module body => S (list_sum (map size body))
  | FunctionDef _ a body decorator_list returns type_params _
  | AsyncFunctionDef _ a body decorator_list returns type_params _ =>
      S (S (size_arguments a) + list_sum (map size body)
         + list_sum (map size decorator_list)
         + match returns with Some r => size r | None => 0 end
         + list_sum (map size type_params))
  | For target iter body orelse _ =>
      S (size target + size iter + list_sum (map size body)
         + list_sum (map size orelse))
  | While test body orelse _ | If test body orelse _ =>
      S (size test + list_sum (map size body) + list_sum (map size orelse))
  | Import names _ | ImportFrom _ names _ _ => S (List.length names)
  | Expr value _ => S (size value)
  | Constant _ _ => 1
  | Name _ _ _ => 2
  | Other _ children => S (list_sum (map size children))
  | ArgumentsNode a => S (size_arguments a)
  | ArgNode a => size_arg a
  | AliasNode _ => 1
  | ContextNode _ => 1
  end
with size_arguments (a : arguments) : nat :=
  match a with
  | Arguments posonly args vararg kwonly kw_defaults kwarg defaults =>
      list_sum (map size_arg posonly) + list_sum (map size_arg args)
      + match vararg with Some v => size_arg v | None => 0 end
      + list_sum (map size_arg kwonly)
      + list_sum (map (fun d => match d with Some e => size e | None => 0 end)
                      kw_defaults)
      + match kwarg with Some v => size_arg v | None => 0 end
      + list_sum (map size defaults)
  end
with size_arg (a : arg) : nat :=
  match a with
  | Arg _ annotation _ =>
      S (match annotation with Some e => size e | None => 0 end)
  end.

(** [ast.walk]: pop the first node of the queue, push its children at the
    end, yield it; until the queue is empty. *)
Fixpoint walk_loop (fuel : nat) (todo : list node) : list node :=
  match fuel, todo with
  | S fuel', n :: rest => n :: walk_loop fuel' (rest ++ iter_child_nodes n)
  | _, _ => []
  end.

Definition walk (n : node) : list node := walk_loop (size n) [n].

End Ast.

Import Py Ast.

(** ** Library functions of Python, written out *)

(** [seq[i]], raising [IndexError] out of range. *)
Definition getitem_list {A} (seq : list A) (i : nat) : result A :=
  match nth_error seq i with
  | Some x => ret x
  | None => raise (IndexError "list index out of range")
  end.

(** A keyword-argument list or a dict literal with string keys. *)
Definition kwargs : Type := list (string * string).

Fixpoint lookup (key : string) (d : kwargs) : option string :=
  match d with
  | [] => None
  | (k, v) :: rest => if String.eqb k key then Some v else lookup key rest
  end.

(** [d[key]], raising [KeyError] when the key is absent. *)
Definition getitem_dict (d : kwargs) (key : string) : result string :=
  match lookup key d with
  | Some v => ret v
  | None => raise (KeyError key)
  end.

(** [template.format(name=..., ...)] for templates made of literal text and
    [{name}] replacement fields, which is what the catalog holds.  [field]
    is the name being read after an opening brace, if any. *)
Fixpoint format_from (template : string) (field : option string) (kw : kwargs)
  : result string :=
  match template with
  | EmptyString =>
      match field with
      | None => ret EmptyString
      | Some _ => raise (ValueError "expected '}' before end of string")
      end
  | String c rest =>
      match field with
      | None =>
          if Ascii.eqb c "{" then format_from rest (Some EmptyString) kw
          else if Ascii.eqb c "}" then
            raise (ValueError "Single '}' encountered in format string")
          else s <- format_from rest None kw ;; ret (String c s)
      | Some name =>
          if Ascii.eqb c "}" then
            v <- getitem_dict kw name ;;
            s <- format_from rest None kw ;;
            ret (v ++ s)%string
          else format_from rest (Some (name ++ String c EmptyString)%string) kw
      end
  end.

Definition format (template : string) (kw : kwargs) : result string :=
  format_from template None kw.

(** A [dict]: its items in insertion order.  Storing under a key that is
    present keeps the key where it is. *)
Definition dict (V : Type) : Type := list (string * V).

Fixpoint setitem {V} (d : dict V) (key : string) (v : V) : dict V :=
  match d with
  | [] => [(key, v)]
  | (k, v') :: rest =>
      if String.eqb k key then (k, v) :: rest else (k, v') :: setitem rest key v
  end.

(** [dict.fromkeys(iterable)]: every key stored in turn, with value [None]. *)
Definition fromkeys (iterable : list string) : dict unit :=
  fold_left (fun d key => setitem d key tt) iterable [].

(** [list(d)]: the keys in insertion order. *)
Definition keys {V} (d : dict V) : list string := map fst d.

(** [ast.get_docstring(node)] with [clean=True]; [cleandoc] is
    [inspect.cleandoc].  On a class that has no docstring the library
    raises [TypeError]; the program calls it on [Module] and [FunctionDef]
    nodes only. *)
Definition get_docstring (cleandoc : string -> string) (n : node) : option string :=
  match n with
  | Module body | FunctionDef _ _ body _ _ _ _ | AsyncFunctionDef _ _ body _ _ _ _ =>
      match body with
      | Expr (Constant (CStr text) _) _ :: _ => Some (cleandoc text)
      | _ => None
      end
  | _ => None
  end.

(** ** The fact set: the dict that [analyze_code] returns *)

Record function_fact : Type :=
  { fn_name : string; fn_lineno : nat; fn_args : list string }.
Record variable_fact : Type := { var_name : string; var_lineno : nat }.
Record loop_fact : Type := { loop_lineno : nat }.
Record conditional_fact : Type := { cond_lineno : nat }.
Record import_fact : Type := { imp_name : string; imp_lineno : nat }.

Record fact_set : Type :=
  { functions : list function_fact;
    variables : list variable_fact;
    loops : list loop_fact;
    conditionals : list conditional_fact;
    imports : list import_fact;
    docstrings : list string }.

(** [analyze_code] returns either the six lists or [{"error": message}]. *)
Inductive analysis : Type :=
| Facts (facts : fact_set)
| Error (error : string).

(** What [generate_questions] returns: one question, or a list holding the
    error message. *)
Inductive value : Type :=
| VStr (s : string)
| VList (l : list string).

(** [self.question_templates] *)
Definition question_templates : kwargs :=
  [ ("function", "What does the function '{name}' at line {lineno} do?");
    ("function_args", "What are the purposes of the arguments in the function '{name}'?");
    ("variable", "What is the role of the variable '{name}' at line {lineno}?");
    ("loop", "What is the significance of the loop starting at line {lineno}?");
    ("conditional", "Under what conditions does the code block at line {lineno} execute?");
    ("import", "Why is the module '{name}' imported, and how is it used?");
    ("docstring", "What does the following docstring explain: '{doc}'?") ].

(** [self.question_templates[key].format(name=..., ...)] *)
Definition render (key : string) (kw : kwargs) : result string :=
  template <- getitem_dict question_templates key ;; format template kw.

(** A [for] loop whose body extends the list [questions]. *)
Fixpoint for_each {A} (body : A -> list string -> result (list string))
    (items : list A) (questions : list string) : result (list string) :=
  match items with
  | [] => ret questions
  | x :: rest => questions' <- body x questions ;; for_each body rest questions'
  end.

(** The comprehensions of [analyze_code], one node at a time. *)
Definition function_of (n : node) : list function_fact :=
  match n with
  | FunctionDef name a _ _ _ _ lineno =>
      [ {| fn_name := name; fn_lineno := lineno;
           fn_args := map arg_arg (args_args a) |} ]
  | _ => []
  end.

Definition variable_of (n : node) : list variable_fact :=
  match n with
  | Name id _ lineno => [ {| var_name := id; var_lineno := lineno |} ]
  | _ => []
  end.

Definition loop_of (n : node) : list loop_fact :=
  match n with
  | For _ _ _ _ lineno | While _ _ _ lineno => [ {| loop_lineno := lineno |} ]
  | _ => []
  end.

Definition conditional_of (n : node) : list conditional_fact :=
  match n with
  | If _ _ _ lineno => [ {| cond_lineno := lineno |} ]
  | _ => []
  end.

Definition import_of (n : node) : result (list import_fact) :=
  match n with
  | Import names lineno =>
      first <- getitem_list names 0 ;;
      ret [ {| imp_name := alias_name first; imp_lineno := lineno |} ]
  | _ => ret []
  end.

(** The bodies of the six loops of [generate_questions]. *)
Definition append_function (func : function_fact) (questions : list string)
  : result (list string) :=
  q <- render "function"
         [("name", fn_name func); ("lineno", str_int (fn_lineno func))] ;;
  let questions := questions ++ [q] in
  match fn_args func with
  | [] => ret questions
  | _ :: _ =>
      q' <- render "function_args" [("name", fn_name func)] ;;
      ret (questions ++ [q'])
  end.

Definition append_variable (var : variable_fact) (questions : list string)
  : result (list string) :=
  q <- render "variable"
         [("name", var_name var); ("lineno", str_int (var_lineno var))] ;;
  ret (questions ++ [q]).

Definition append_loop (loop : loop_fact) (questions : list string)
  : result (list string) :=
  q <- render "loop" [("lineno", str_int (loop_lineno loop))] ;;
  ret (questions ++ [q]).

Definition append_conditional (cond : conditional_fact) (questions : list string)
  : result (list string) :=
  q <- render "conditional" [("lineno", str_int (cond_lineno cond))] ;;
  ret (questions ++ [q]).

Definition append_import (imp : import_fact) (questions : list string)
  : result (list string) :=
  q <- render "import" [("name", imp_name imp)] ;;
  ret (questions ++ [q]).

Definition append_docstring (doc : string) (questions : list string)
  : result (list string) :=
  q <- render "docstring" [("doc", doc)] ;;
  ret (questions ++ [q]).

(** The list [questions] when the six loops are over. *)
Definition candidate_questions (a : fact_set) : result (list string) :=
  questions <- for_each append_function (functions a) [] ;;
  questions <- for_each append_variable (variables a) questions ;;
  questions <- for_each append_loop (loops a) questions ;;
  questions <- for_each append_conditional (conditionals a) questions ;;
  questions <- for_each append_import (imports a) questions ;;
  for_each append_docstring (docstrings a) questions.

(** [list(dict.fromkeys(questions))] *)
Definition unique (questions : list string) : list string :=
  keys (fromkeys questions).

(** ** The generator, over the library it calls *)

(** What the program takes from the Python library without our writing it
    out: [ast.parse] (the tree of the snippet, or the exception it raises),
    [inspect.cleandoc], [str.strip], and the state of the generator of
    module [random] with its [_randbelow(n)]. *)
Class Library : Type :=
  { parse : string -> result node;
    cleandoc : string -> string;
    strip : string -> string;
    G : Type;
    randbelow : G -> nat -> nat * G }.

(** [_randbelow(n)] returns an integer in the range [0, n). *)
Class RandomInRange (L : Library) : Prop :=
  randbelow_lt : forall (g : G) (n : nat), 0 < n -> fst (randbelow g n) < n.

Section Generator.

Context {L : Library}.

(** [random.choice(seq)] *)
Definition choice (seq : list string) (g : G) : result string * G :=
  match seq with
  | [] => (raise (IndexError "Cannot choose from an empty sequence"), g)
  | _ :: _ =>
      let (i, g') := randbelow g (List.length seq) in
      (getitem_list seq i, g')
  end.

(** [extract_docstrings(tree)] *)
Definition docstring_of (n : node) : list string :=
  match n with
  | Module _ | FunctionDef _ _ _ _ _ _ _ =>
      match get_docstring cleandoc n with
      | Some docstring =>
          if String.eqb docstring EmptyString then [] else [strip docstring]
      | None => []
      end
  | _ => []
  end.

Definition extract_docstrings (tree : node) : list string :=
  flat_map docstring_of (walk tree).

(** The body of the [try] of [analyze_code], after parsing. *)
Definition analyze_tree (tree : node) : result fact_set :=
  let functions := flat_map function_of (walk tree) in
  let variables := flat_map variable_of (walk tree) in
  let loops := flat_map loop_of (walk tree) in
  let conditionals := flat_map conditional_of (walk tree) in
  imports <- mapM import_of (walk tree) ;;
  ret {| functions := functions;
         variables := variables;
         loops := loops;
         conditionals := conditionals;
         imports := concat imports;
         docstrings := extract_docstrings tree |}.

(** [analyze_code(code_snippet)]: any exception becomes the error dict. *)
Definition analyze_code (code_snippet : string) : analysis :=
  match (tree <- parse code_snippet ;; analyze_tree tree) with
  | inr facts => Facts facts
  | inl e => Error (str_exn e)
  end.

(** [generate_questions(code_snippet)], with the state of the random
    generator before and after. *)
Definition generate_questions (code_snippet : string) (g : G) : result value * G :=
  match analyze_code code_snippet with
  | Error error => (ret (VList [("Error analyzing code: " ++ error)%string]), g)
  | Facts a =>
      match candidate_questions a with
      | inl e => (raise e, g)
      | inr questions =>
          let unique_questions := unique questions in
          let (question, g') := choice unique_questions g in
          (q <- question ;; ret (VStr q), g')
      end
  end.

End Generator.

(** ** Notions used to state the properties *)

(** [descendant n d]: [d] is [n] or a node below it. *)
Inductive descendant : node -> node -> Prop :=
| descendant_self n : descendant n n
| descendant_child n c d :
    In c (iter_child_nodes n) -> descendant c d -> descendant n d.

(** The number of nodes still to visit when the queue of [walk] is [todo]. *)
Definition total_size (todo : list node) : nat := list_sum (map size todo).

Definition is_FunctionDef (n : node) : bool :=
  match n with FunctionDef _ _ _ _ _ _ _ => true | _ => false end.

(** [x in l] *)
Definition mem (x : string) (l : list string) : bool := existsb (String.eqb x) l.

(** The strings of [l] that are neither in [seen] nor earlier in [l]. *)
Fixpoint first_occurrences (seen l : list string) : list string :=
  match l with
  | [] => []
  | x :: rest =>
      if mem x seen then first_occurrences seen rest
      else x :: first_occurrences (seen ++ [x]) rest
  end.

(** Deduplication in the words of the specification: the entry at position
    [i] is kept exactly when its string does not occur at an earlier
    position, and the entries kept stay in the order they had. *)
Definition is_first_occurrence (l : list string) (i : nat) (x : string) : bool :=
  negb (mem x (firstn i l)).

Definition keep_first_occurrences (l : list string) : list string :=
  map snd (filter (fun p => is_first_occurrence l (fst p) (snd p))
                  (combine (seq 0 (List.length l)) l)).

(** The seven questions, as text around the values of the fact. *)
Definition function_question (name : string) (lineno : nat) : string :=
  "What does the function '" ++ name ++ "' at line " ++ str_int lineno ++ " do?".
Definition function_args_question (name : string) : string :=
  "What are the purposes of the arguments in the function '" ++ name ++ "'?".
Definition variable_question (name : string) (lineno : nat) : string :=
  "What is the role of the variable '" ++ name ++ "' at line " ++ str_int lineno ++ "?".
Definition loop_question (lineno : nat) : string :=
  "What is the significance of the loop starting at line " ++ str_int lineno ++ "?".
Definition conditional_question (lineno : nat) : string :=
  "Under what conditions does the code block at line " ++ str_int lineno ++ " execute?".
Definition import_question (name : string) : string :=
  "Why is the module '" ++ name ++ "' imported, and how is it used?".
Definition docstring_question (doc : string) : string :=
  "What does the following docstring explain: '" ++ doc ++ "'?".

Definition questions_of_function (func : function_fact) : list string :=
  function_question (fn_name func) (fn_lineno func)
  :: match fn_args func with
     | [] => []
     | _ :: _ => [function_args_question (fn_name func)]
     end.

(** The questions of a fact set, category after category. *)
Definition rendered_questions (a : fact_set) : list string :=
  flat_map questions_of_function (functions a)
  ++ map (fun var => variable_question (var_name var) (var_lineno var)) (variables a)
  ++ map (fun loop => loop_question (loop_lineno loop)) (loops a)
  ++ map (fun cond => conditional_question (cond_lineno cond)) (conditionals a)
  ++ map (fun imp => import_question (imp_name imp)) (imports a)
  ++ map docstring_question (docstrings a).

(** A fact set with a record in some category. *)
Definition has_fact (a : fact_set) : bool :=
  negb (Nat.eqb (List.length (functions a) + List.length (variables a)
                 + List.length (loops a) + List.length (conditionals a)
                 + List.length (imports a) + List.length (docstrings a)) 0).

(** The nodes that give a record in one of the five categories that hold
    a line number. *)
Definition is_fact_node (n : node) : bool :=
  match n with
  | FunctionDef _ _ _ _ _ _ _ | Name _ _ _ | For _ _ _ _ _ | While _ _ _ _
  | If _ _ _ _ | Import _ _ => true
  | _ => false
  end.

(** The grammar gives every [import] statement at least one name. *)
Definition imports_listed (tree : node) : Prop :=
  forall lineno, ~ descendant tree (Import [] lineno).

(** Function definitions and import statements of Python, whatever class
    the parser gives them: [def] and [async def]; [import] and
    [from ... import]. *)
Definition is_function_definition (n : node) : bool :=
  match n with
  | FunctionDef _ _ _ _ _ _ _ | AsyncFunctionDef _ _ _ _ _ _ _ => true
  | _ => false
  end.

Definition is_import_statement (n : node) : bool :=
  match n with
  | Import _ _ | ImportFrom _ _ _ _ => true
  | _ => false
  end.

(** Only the import question starts with "Why". *)
Definition asks_why (q : string) : bool :=
  match q with
  | String "W" (String "h" (String "y" _)) => true
  | _ => false
  end.

(** ** Snippets and their trees *)

Module Samples.

Definition newline : string := String (ascii_of_nat 10) EmptyString.

(** [def add(a, b):] / [    return a + b] *)
Definition add_snippet : string := "def add(a, b):" ++ newline ++ "    return a + b".
Definition add_tree : node :=
  Module
    [ FunctionDef "add"
        (Arguments [] [Arg "a" None 1; Arg "b" None 1] None [] [] None [])
        [ Other "Return"
            [ Other "BinOp" [Name "a" Load 2; Other "Add" []; Name "b" Load 2] ] ]
        [] None [] 1 ].

(** [x = 1] *)
Definition assign_snippet : string := "x = 1".
Definition assign_tree : node :=
  Module [ Other "Assign" [Name "x" Store 1; Constant (CInt 1) 1] ].

(** [42] *)
Definition literal_snippet : string := "42".
Definition literal_tree : node := Module [ Expr (Constant (CInt 42) 1) 1 ].

(** [import os, sys] *)
Definition import_snippet : string := "import os, sys".
Definition import_tree : node :=
  Module [ Import [Alias "os" None; Alias "sys" None] 1 ].

(** [from m import n] *)
Definition from_import_snippet : string := "from m import n".
Definition from_import_tree : node :=
  Module [ ImportFrom (Some "m") [Alias "n" None] 0 1 ].

(** [async def fetch(url):] / [    pass] *)
Definition async_snippet : string := "async def fetch(url):" ++ newline ++ "    pass".
Definition async_tree : node :=
  Module
    [ AsyncFunctionDef "fetch"
        (Arguments [] [Arg "url" None 1] None [] [] None [])
        [ Other "Pass" [] ] [] None [] 1 ].

(** [def first(a, /, b):] / [    pass] *)
Definition posonly_snippet : string := "def first(a, /, b):" ++ newline ++ "    pass".
Definition posonly_tree : node :=
  Module
    [ FunctionDef "first"
        (Arguments [Arg "a" None 1] [Arg "b" None 1] None [] [] None [])
        [ Other "Pass" [] ] [] None [] 1 ].

(** [def f(:] does not parse. *)
Definition broken_snippet : string := "def f(:".

(** A stand-in for the library: the parser knows the snippets above and
    rejects every other text, the texts it meets need no cleaning, and the
    generator counts its draws. *)
Definition known_snippets : list (string * node) :=
  [ (add_snippet, add_tree); (assign_snippet, assign_tree);
    (literal_snippet, literal_tree); (import_snippet, import_tree);
    (from_import_snippet, from_import_tree); (async_snippet, async_tree);
    (posonly_snippet, posonly_tree) ].

Definition sample_parse (source : string) : result node :=
  match find (fun entry => String.eqb (fst entry) source) known_snippets with
  | Some entry => ret (snd entry)
  | None => raise (SyntaxError "invalid syntax (<unknown>, line 1)")
  end.

Definition sample_library : Library :=
  {| parse := sample_parse;
     cleandoc := fun text => text;
     strip := fun text => text;
     G := nat;
     randbelow := fun g n => (g mod n, S g) |}.

(** The fact sets and the list of questions that the properties below
    name. *)
Definition no_facts : fact_set :=
  {| functions := []; variables := []; loops := []; conditionals := [];
     imports := []; docstrings := [] |}.

Definition add_facts : fact_set :=
  {| functions := [ {| fn_name := "add"; fn_lineno := 1; fn_args := ["a"; "b"] |} ];
     variables := [ {| var_name := "a"; var_lineno := 2 |};
                    {| var_name := "b"; var_lineno := 2 |} ];
     loops := []; conditionals := []; imports := []; docstrings := [] |}.

Definition add_pool : list string :=
  [ "What does the function 'add' at line 1 do?";
    "What are the purposes of the arguments in the function 'add'?";
    "What is the role of the variable 'a' at line 2?";
    "What is the role of the variable 'b' at line 2?" ].

Definition assign_facts : fact_set :=
  {| functions := [];
     variables := [ {| var_name := "x"; var_lineno := 1 |} ];
     loops := []; conditionals := []; imports := []; docstrings := [] |}.

Definition import_facts : fact_set :=
  {| functions := []; variables := []; loops := []; conditionals := [];
     imports := [ {| imp_name := "os"; imp_lineno := 1 |} ]; docstrings := [] |}.

End Samples.

(** ** Further notions: classes, depth, documented bodies *)

Definition is_Name (n : node) : bool :=
  match n with Name _ _ _ => true | _ => false end.

Definition is_loop (n : node) : bool :=
  match n with For _ _ _ _ _ | While _ _ _ _ => true | _ => false end.

Definition is_If (n : node) : bool :=
  match n with If _ _ _ _ => true | _ => false end.

Definition is_Import (n : node) : bool :=
  match n with Import _ _ => true | _ => false end.

Definition is_Module (n : node) : bool :=
  match n with Module _ => true | _ => false end.

(** The nodes [d] levels below the nodes of a list, from left to right. *)
Fixpoint generation (d : nat) (nodes : list node) : list node :=
  match d with
  | 0 => nodes
  | S d' => generation d' (flat_map iter_child_nodes nodes)
  end.

(** The nodes of a tree by depth: the root, its children, their
    children, ... *)
Definition by_depth (tree : node) : list node :=
  concat (map (fun d => generation d [tree]) (seq 0 (size tree))).

(** The body of a node whose docstring [extract_docstrings] looks for. *)
Definition documented_body (n : node) : option (list node) :=
  match n with
  | Module body | FunctionDef _ _ body _ _ _ _ => Some body
  | _ => None
  end.

(** The number of questions that the loop over the functions appends for
    one record. *)
Definition questions_per_function (func : function_fact) : nat :=
  match fn_args func with [] => 1 | _ :: _ => 2 end.

(** The text of a template before its first replacement field. *)
Fixpoint literal_prefix (template : string) : string :=
  match template with
  | EmptyString => EmptyString
  | String c rest =>
      if Ascii.eqb c "{" then EmptyString else String c (literal_prefix rest)
  end.

(** [rendered_from keys q]: [q] is a rendering of one of the templates
    [keys]. *)
Definition rendered_from (keys : list string) (q : string) : Prop :=
  exists key kw, In key keys /\ render key kw = ret q.

(** The class of an exception. *)
Definition class_of (e : exn) : string :=
  match e with
  | SyntaxError _ => "SyntaxError"
  | IndexError _ => "IndexError"
  | KeyError _ => "KeyError"
  | ValueError _ => "ValueError"
  | OtherError cls _ => cls
  end.

(** In the words of the specification: the error of an empty pool is an
    error of the synthesizer's own, a [SynthesisError] or
    [EmptyQuestionPool]. *)
Definition is_empty_pool_error (e : exn) : bool :=
  String.eqb (class_of e) "SynthesisError"
  || String.eqb (class_of e) "EmptyQuestionPool".

(** The Import records that the comprehension makes of a node, none when
    it makes none. *)
Definition import_records (n : node) : list import_fact :=
  match import_of n with
  | inr records => records
  | inl _ => []
  end.


(** Two definitions of one name, each with an argument:
    [def f(a): pass] and, two lines down, [def f(b): pass]. *)
Definition redefined_facts : fact_set :=
  {| functions := [ {| fn_name := "f"; fn_lineno := 1; fn_args := ["a"] |};
                    {| fn_name := "f"; fn_lineno := 3; fn_args := ["b"] |} ];
     variables := []; loops := []; conditionals := []; imports := [];
     docstrings := [] |}.

(** ** The route [/generate_question]

    The route reads [request.json.get("code_snippet")], rejects a value
    that is not truthy, and answers with the result of
    [generate_questions]; any exception becomes a 500 answer.  Flask is the
    collaborator: what evaluating [request.json] gives (the parsed body, or
    the exception raised on a body that is not JSON) is the argument of the
    route. *)

(** A JSON value as the route sees it: [None], a string, or a value of
    another type (number, boolean, list, object), of which the route
    observes the truth value only. *)
Inductive json : Type :=
| JNull
| JStr (s : string)
| JOther (truthy : bool).

(** The parsed body: an object, or a value of another type, of which the
    route observes the name of the type in the message of the
    [AttributeError]. *)
Inductive body : Type :=
| JObject (items : list (string * json))
| JNotObject (type_name : string).

(** What [jsonify(payload), status] answers; [jsonify] alone answers 200. *)
Record response : Type :=
  { payload : list (string * value); status : nat }.

(** [d.get(key)] on a dict: the value, or [None]. *)
Fixpoint dict_get (items : list (string * json)) (key : string) : json :=
  match items with
  | [] => JNull
  | (k, v) :: rest => if String.eqb k key then v else dict_get rest key
  end.

(** [request.json.get(key)] *)
Definition body_get (b : body) (key : string) : result json :=
  match b with
  | JObject items => ret (dict_get items key)
  | JNotObject type_name =>
      raise (OtherError "AttributeError"
               ("'" ++ type_name ++ "' object has no attribute 'get'"))
  end.

(** [bool(v)] *)
Definition truth (v : json) : bool :=
  match v with
  | JNull => false
  | JStr s => negb (String.eqb s EmptyString)
  | JOther truthy => truthy
  end.

Section Route.

Context {L : Library}.

(** [generate_questions(code_snippet)] on a JSON value: on a value that is
    not a string [ast.parse] raises [TypeError] inside the [try] of
    [analyze_code]. *)
Definition generate_questions_of (code_snippet : json) (g : G) : result value * G :=
  match code_snippet with
  | JStr s => generate_questions s g
  | _ =>
      (ret (VList [("Error analyzing code: "
                    ++ "compile() arg 1 must be a string, bytes or AST object")%string]),
       g)
  end.

(** [generate_question()] *)
Definition generate_question (request_json : result body) (g : G) : response * G :=
  match (b <- request_json ;; body_get b "code_snippet") with
  | inl e => ({| payload := [("error", VStr (str_exn e))]; status := 500 |}, g)
  | inr code_snippet =>
      if negb (truth code_snippet) then
        ({| payload := [("error", VStr "No code snippet provided")];
            status := 400 |}, g)
      else
        let (question, g') := generate_questions_of code_snippet g in
        match question with
        | inr question =>
            ({| payload := [("question", question)]; status := 200 |}, g')
        | inl e =>
            ({| payload := [("error", VStr (str_exn e))]; status := 500 |}, g')
        end
  end.

End Route.

(** ** A snippet with every kind of fact *)

Module Tour.

(** [def total(xs):]
    [    '''Sum the positive items.''']
    [    s = 0]
    [    for x in xs:]
    [        if x > 0:]
    [            s = s + x]
    [        elif x < 0:]
    [            pass]
    [    return s] *)
Definition total_snippet : string :=
  "def total(xs):" ++ Samples.newline
  ++ "    '''Sum the positive items.'''" ++ Samples.newline
  ++ "    s = 0" ++ Samples.newline
  ++ "    for x in xs:" ++ Samples.newline
  ++ "        if x > 0:" ++ Samples.newline
  ++ "            s = s + x" ++ Samples.newline
  ++ "        elif x < 0:" ++ Samples.newline
  ++ "            pass" ++ Samples.newline
  ++ "    return s".

Definition total_def : node :=
  FunctionDef "total"
    (Arguments [] [Arg "xs" None 1] None [] [] None [])
    [ Expr (Constant (CStr "Sum the positive items.") 2) 2;
      Other "Assign" [Name "s" Store 3; Constant (CInt 0) 3];
      For (Name "x" Store 4) (Name "xs" Load 4)
        [ If (Other "Compare"
                [Name "x" Load 5; Other "Gt" []; Constant (CInt 0) 5])
            [ Other "Assign"
                [ Name "s" Store 6;
                  Other "BinOp"
                    [Name "s" Load 6; Other "Add" []; Name "x" Load 6] ] ]
            [ If (Other "Compare"
                    [Name "x" Load 7; Other "Lt" []; Constant (CInt 0) 7])
                [ Other "Pass" [] ] [] 7 ]
            5 ]
        [] 4;
      Other "Return" [Name "s" Load 9] ]
    [] None [] 1.

Definition total_tree : node := Module [ total_def ].

Definition total_facts : fact_set :=
  {| functions := [ {| fn_name := "total"; fn_lineno := 1; fn_args := ["xs"] |} ];
     variables := [ {| var_name := "s"; var_lineno := 3 |};
                    {| var_name := "x"; var_lineno := 4 |};
                    {| var_name := "xs"; var_lineno := 4 |};
                    {| var_name := "s"; var_lineno := 9 |};
                    {| var_name := "x"; var_lineno := 5 |};
                    {| var_name := "s"; var_lineno := 6 |};
                    {| var_name := "s"; var_lineno := 6 |};
                    {| var_name := "x"; var_lineno := 6 |};
                    {| var_name := "x"; var_lineno := 7 |} ];
     loops := [ {| loop_lineno := 4 |} ];
     conditionals := [ {| cond_lineno := 5 |}; {| cond_lineno := 7 |} ];
     imports := [];
     docstrings := [ "Sum the positive items." ] |}.

(** [import os, sys] and a second [import os] further down. *)
Definition imports_snippet : string :=
  "import os, sys" ++ Samples.newline ++ "import os".
Definition imports_tree : node :=
  Module [ Import [Alias "os" None; Alias "sys" None] 1;
           Import [Alias "os" None] 2 ].

(** A stand-in for the library, as in [Samples], for these snippets; the
    docstring above needs no cleaning. *)
Definition tour_parse (source : string) : result node :=
  if String.eqb source total_snippet then ret total_tree
  else if String.eqb source imports_snippet then ret imports_tree
  else if String.eqb source Samples.literal_snippet then ret Samples.literal_tree
  else raise (SyntaxError "invalid syntax (<unknown>, line 1)").

Definition tour_library : Library :=
  {| parse := tour_parse;
     cleandoc := fun text => text;
     strip := fun text => text;
     G := nat;
     randbelow := fun g n => (g mod n, S g) |}.

End Tour.

(** ** [ast.walk] visits every node of the tree, once *)

Lemma total_size_app l1 l2 : total_size (l1 ++ l2) = total_size l1 + total_size l2.
Proof. unfold total_size. now rewrite map_app, list_sum_app. Qed.

Lemma total_size_args (l : list arg) :
  total_size (map ArgNode l) = list_sum (map size_arg l).
Proof. unfold total_size. rewrite map_map. reflexivity. Qed.

Lemma total_size_opt_arg (o : option arg) :
  total_size (map ArgNode (opt o)) = match o with Some v => size_arg v | None => 0 end.
Proof. destruct o; cbn; lia. Qed.

Lemma total_size_opt (o : option node) :
  total_size (opt o) = match o with Some e => size e | None => 0 end.
Proof. destruct o; cbn; lia. Qed.

Lemma total_size_somes (l : list (option node)) :
  total_size (somes l)
  = list_sum (map (fun d => match d with Some e => size e | None => 0 end) l).
Proof.
  induction l as [|d l IH]; trivial.
  change (somes (d :: l)) with (opt d ++ somes l).
  rewrite total_size_app, IH, total_size_opt. reflexivity.
Qed.

Lemma total_size_aliases (l : list alias) :
  total_size (map AliasNode l) = List.length l.
Proof. induction l; cbn; auto. Qed.

Lemma size_children n : size n = S (total_size (iter_child_nodes n)).
Proof.
  destruct n as [body|? [po ar va ko kd kw de] body ds r tps ?
                |? [po ar va ko kd kw de] body ds r tps ?|t i body e ?|t body e ?
                |t body e ?|names ?|? names ? ?|v ?|? ?|? c ?|? ch
                |[po ar va ko kd kw de]|[? an ?]|al|c];
    cbn [iter_child_nodes size];
    repeat match goal with
      | |- context [total_size (?x :: ?l)] =>
          change (total_size (x :: l)) with (size x + total_size l)
      end;
    rewrite ?total_size_app, ?total_size_opt_arg, ?total_size_args,
      ?total_size_opt, ?total_size_somes, ?total_size_aliases;
    unfold total_size;
    cbn [size size_arguments size_arg map list_sum fold_right]; lia.
Qed.
Lemma size_pos n : 0 < size n.
Proof. rewrite size_children. lia. Qed.

Lemma walk_loop_fuel fuel1 : forall fuel2 todo,
  total_size todo <= fuel1 -> total_size todo <= fuel2 ->
  walk_loop fuel1 todo = walk_loop fuel2 todo.
Proof.
  induction fuel1 as [|fuel1 IH]; intros fuel2 [|n rest] H1 H2.
  - now destruct fuel2.
  - change (total_size (n :: rest)) with (size n + total_size rest) in H1.
    pose proof (size_pos n). lia.
  - now destruct fuel2.
  - change (total_size (n :: rest)) with (size n + total_size rest) in H1, H2.
    pose proof (size_children n) as Hn.
    destruct fuel2 as [|fuel2]; [lia|].
    cbn [walk_loop]. f_equal.
    apply IH; rewrite total_size_app; lia.
Qed.

Lemma walk_loop_length fuel : forall todo,
  total_size todo <= fuel -> List.length (walk_loop fuel todo) = total_size todo.
Proof.
  induction fuel as [|fuel IH]; intros [|n rest] H; trivial.
  - change (total_size (n :: rest)) with (size n + total_size rest) in H.
    pose proof (size_pos n). lia.
  - change (total_size (n :: rest)) with (size n + total_size rest) in *.
    pose proof (size_children n) as Hn.
    cbn [walk_loop List.length]. rewrite IH; rewrite total_size_app; lia.
Qed.

Lemma walk_loop_sound fuel : forall todo x,
  In x (walk_loop fuel todo) -> exists t, In t todo /\ descendant t x.
Proof.
  induction fuel as [|fuel IH]; intros [|n rest] x Hx; try contradiction.
  cbn [walk_loop] in Hx. destruct Hx as [<-|Hx].
  - exists n. split; [now left | constructor].
  - apply IH in Hx. destruct Hx as (t & Ht & Hd).
    apply in_app_or in Ht. destruct Ht as [Ht|Ht].
    + exists t. split; [now right | assumption].
    + exists n. split; [now left | econstructor; eassumption].
Qed.

Lemma walk_loop_complete fuel : forall todo t x,
  total_size todo <= fuel -> In t todo -> descendant t x ->
  In x (walk_loop fuel todo).
Proof.
  induction fuel as [|fuel IH]; intros [|n rest] t x H Ht Hd; try contradiction.
  - change (total_size (n :: rest)) with (size n + total_size rest) in H.
    pose proof (size_pos n). lia.
  - change (total_size (n :: rest)) with (size n + total_size rest) in H.
    pose proof (size_children n) as Hn.
    assert (Hfuel : total_size (rest ++ iter_child_nodes n) <= fuel)
      by (rewrite total_size_app; lia).
    cbn [walk_loop]. destruct Ht as [->|Ht].
    + destruct Hd as [|t c d Hc Hd]; [now left|].
      right. apply (IH _ c); auto using in_or_app.
    + right. apply (IH _ t); auto using in_or_app.
Qed.

Lemma walk_In tree x : In x (walk tree) <-> descendant tree x.
Proof.
  unfold walk. split.
  - intros H. apply walk_loop_sound in H. destruct H as (t & [<-|[]] & Hd).
    exact Hd.
  - intros H. apply (walk_loop_complete _ _ tree); [|now left|exact H].
    cbn. lia.
Qed.

Lemma walk_length tree : List.length (walk tree) = size tree.
Proof. unfold walk. rewrite walk_loop_length; cbn; lia. Qed.

Lemma walk_enough_fuel tree fuel :
  size tree <= fuel -> walk_loop fuel [tree] = walk tree.
Proof. intros H. apply walk_loop_fuel; cbn; lia. Qed.

(** ** [dict.fromkeys] keeps first occurrences *)

Lemma mem_In x l : mem x l = true <-> In x l.
Proof.
  unfold mem. rewrite existsb_exists. split.
  - intros (y & Hy & E). apply String.eqb_eq in E. now subst.
  - intros H. exists x. split; [assumption | apply String.eqb_refl].
Qed.

Lemma mem_app x l1 l2 : mem x (l1 ++ l2) = mem x l1 || mem x l2.
Proof. apply existsb_app. Qed.

Lemma keys_setitem (d : dict unit) key :
  keys (setitem d key tt) = if mem key (keys d) then keys d else keys d ++ [key].
Proof.
  induction d as [|[k v] d IH]; cbn; trivial.
  rewrite (String.eqb_sym key k). destruct (String.eqb k key) eqn:E; cbn.
  - apply String.eqb_eq in E. subst. reflexivity.
  - unfold keys, mem in IH. rewrite IH.
    now destruct (existsb (String.eqb key) (map fst d)).
Qed.

Lemma keys_fold_setitem l : forall d : dict unit,
  keys (fold_left (fun d key => setitem d key tt) l d)
  = keys d ++ first_occurrences (keys d) l.
Proof.
  induction l as [|x l IH]; intros d; cbn [fold_left first_occurrences].
  - now rewrite app_nil_r.
  - rewrite IH, keys_setitem. destruct (mem x (keys d)); trivial.
    now rewrite <- app_assoc.
Qed.

Lemma unique_first_occurrences l : unique l = first_occurrences [] l.
Proof. unfold unique, fromkeys. now rewrite keys_fold_setitem. Qed.

Lemma first_occurrences_ext l : forall s1 s2,
  (forall y, mem y s1 = mem y s2) ->
  first_occurrences s1 l = first_occurrences s2 l.
Proof.
  induction l as [|x l IH]; intros s1 s2 H; cbn; trivial.
  rewrite <- (H x). destruct (mem x s1) eqn:E.
  - now apply IH.
  - f_equal. apply IH. intros y. rewrite !mem_app. now rewrite H.
Qed.

Lemma first_occurrences_positions l : forall p,
  map snd (filter (fun q => is_first_occurrence (p ++ l) (fst q) (snd q))
                  (combine (seq (List.length p) (List.length l)) l))
  = first_occurrences p l.
Proof.
  induction l as [|x l IH]; intros p; trivial.
  cbn [List.length seq combine filter fst snd first_occurrences].
  unfold is_first_occurrence at 1.
  rewrite firstn_app, firstn_all, Nat.sub_diag, firstn_O, app_nil_r.
  specialize (IH (p ++ [x])).
  rewrite <- app_assoc, length_app, Nat.add_1_r in IH. cbn [app] in IH.
  destruct (mem x p) eqn:E; cbn [negb map snd]; rewrite IH; trivial.
  apply first_occurrences_ext. intros y. rewrite mem_app. cbn.
  destruct (String.eqb y x) eqn:Ey; [|now rewrite !orb_false_r].
  apply String.eqb_eq in Ey. subst. now rewrite E.
Qed.

Lemma unique_keep_first l : unique l = keep_first_occurrences l.
Proof.
  rewrite unique_first_occurrences. symmetry.
  apply (first_occurrences_positions l []).
Qed.

Lemma first_occurrences_In l : forall seen x,
  In x (first_occurrences seen l) <-> In x l /\ mem x seen = false.
Proof.
  induction l as [|y l IH]; intros seen x; cbn.
  - tauto.
  - destruct (mem y seen) eqn:E.
    + rewrite IH. split; [tauto|]. intros [[->|H] Hx]; [congruence | tauto].
    + cbn. rewrite IH, mem_app. cbn. rewrite orb_false_r.
      destruct (String.eqb x y) eqn:Exy.
      * apply String.eqb_eq in Exy. subst. rewrite orb_true_r. intuition congruence.
      * rewrite orb_false_r.
        assert (y <> x) by (intros ->; rewrite String.eqb_refl in Exy; discriminate).
        tauto.
Qed.

Lemma first_occurrences_NoDup l : forall seen, NoDup (first_occurrences seen l).
Proof.
  induction l as [|y l IH]; intros seen; cbn; [constructor|].
  destruct (mem y seen); [apply IH|]. constructor; [|apply IH].
  rewrite first_occurrences_In, mem_app. cbn. rewrite String.eqb_refl.
  rewrite orb_true_r. intros [_ H]. discriminate.
Qed.

Lemma unique_In l x : In x (unique l) <-> In x l.
Proof. rewrite unique_first_occurrences, first_occurrences_In. cbn. tauto. Qed.

Lemma unique_NoDup l : NoDup (unique l).
Proof. rewrite unique_first_occurrences. apply first_occurrences_NoDup. Qed.

Lemma first_occurrences_app l1 : forall seen l2,
  first_occurrences seen (l1 ++ l2)
  = first_occurrences seen l1 ++ first_occurrences (seen ++ l1) l2.
Proof.
  induction l1 as [|x l1 IH]; intros seen l2; cbn [app first_occurrences].
  - now rewrite app_nil_r.
  - destruct (mem x seen) eqn:E.
    + rewrite IH. f_equal. apply first_occurrences_ext. intros y.
      rewrite !mem_app. cbn. destruct (String.eqb y x) eqn:Ey; trivial.
      apply String.eqb_eq in Ey. subst. rewrite E. reflexivity.
    + cbn [app]. rewrite IH, <- app_assoc. reflexivity.
Qed.

Lemma first_occurrences_seen seen x l2 l3 :
  mem x seen = true ->
  first_occurrences seen (l2 ++ x :: l3) = first_occurrences seen (l2 ++ l3).
Proof.
  intros H. rewrite !first_occurrences_app. f_equal.
  cbn [first_occurrences]. now rewrite mem_app, H.
Qed.

Lemma unique_repeat l1 x l2 l3 :
  unique (l1 ++ x :: l2 ++ x :: l3) = unique (l1 ++ x :: l2 ++ l3).
Proof.
  rewrite !unique_first_occurrences, !first_occurrences_app. f_equal.
  cbn [first_occurrences]. destruct (mem x ([] ++ l1)) eqn:E.
  - now apply first_occurrences_seen.
  - f_equal. apply first_occurrences_seen.
    rewrite mem_app. cbn. rewrite String.eqb_refl. apply orb_true_r.
Qed.

Lemma unique_nil l : unique l = [] <-> l = [].
Proof.
  split; [|now intros ->].
  destruct l as [|x l]; trivial. intros H.
  assert (Hx : In x (unique (x :: l))) by (apply unique_In; now left).
  rewrite H in Hx. contradiction.
Qed.

(** ** The loops of [generate_questions] never raise *)

Lemma append_function_eq func questions :
  append_function func questions = ret (questions ++ questions_of_function func).
Proof.
  unfold append_function, questions_of_function.
  destruct (fn_args func); cbn; rewrite <- ?app_assoc; reflexivity.
Qed.

Lemma append_variable_eq var questions :
  append_variable var questions
  = ret (questions ++ [variable_question (var_name var) (var_lineno var)]).
Proof. reflexivity. Qed.

Lemma append_loop_eq loop questions :
  append_loop loop questions = ret (questions ++ [loop_question (loop_lineno loop)]).
Proof. reflexivity. Qed.

Lemma append_conditional_eq cond questions :
  append_conditional cond questions
  = ret (questions ++ [conditional_question (cond_lineno cond)]).
Proof. reflexivity. Qed.

Lemma append_import_eq imp questions :
  append_import imp questions = ret (questions ++ [import_question (imp_name imp)]).
Proof. reflexivity. Qed.

Lemma append_docstring_eq doc questions :
  append_docstring doc questions = ret (questions ++ [docstring_question doc]).
Proof. reflexivity. Qed.

Lemma for_each_flat_map {A} (body : A -> list string -> result (list string))
    (f : A -> list string) items :
  (forall x questions, body x questions = ret (questions ++ f x)) ->
  forall questions,
    for_each body items questions = ret (questions ++ flat_map f items).
Proof.
  intros Hbody. induction items as [|x items IH]; intros questions; cbn.
  - now rewrite app_nil_r.
  - rewrite Hbody. cbn. rewrite IH, app_assoc. reflexivity.
Qed.

Lemma flat_map_singleton {A B} (f : A -> B) l :
  flat_map (fun x => [f x]) l = map f l.
Proof. induction l; cbn; congruence. Qed.

Lemma candidate_questions_eq a : candidate_questions a = ret (rendered_questions a).
Proof.
  unfold candidate_questions, rendered_questions.
  rewrite (for_each_flat_map _ _ _ append_function_eq). cbn [bind ret app].
  rewrite (for_each_flat_map _ (fun var => [variable_question (var_name var) (var_lineno var)]) _ append_variable_eq).
  cbn [bind ret].
  rewrite (for_each_flat_map _ (fun loop => [loop_question (loop_lineno loop)]) _ append_loop_eq).
  cbn [bind ret].
  rewrite (for_each_flat_map _ (fun cond => [conditional_question (cond_lineno cond)]) _ append_conditional_eq).
  cbn [bind ret].
  rewrite (for_each_flat_map _ (fun imp => [import_question (imp_name imp)]) _ append_import_eq).
  cbn [bind ret].
  rewrite (for_each_flat_map _ (fun doc => [docstring_question doc]) _ append_docstring_eq).
  rewrite !flat_map_singleton, <- !app_assoc. reflexivity.
Qed.

(** ** Strings *)

Lemma string_length_append (a b : string) :
  String.length (a ++ b) = String.length a + String.length b.
Proof. induction a as [|c a IH]; cbn; congruence. Qed.

Lemma append_inv_head (p a b : string) : (p ++ a = p ++ b)%string -> a = b.
Proof. induction p as [|c p IH]; cbn; [trivial | intros [= H]; auto]. Qed.

Lemma append_inv_tail (s : string) : forall a b : string,
  (a ++ s = b ++ s)%string -> a = b.
Proof.
  induction a as [|c a IH]; intros [|c' b] H; trivial.
  - apply (f_equal String.length) in H. cbn in H.
    rewrite string_length_append in H. lia.
  - apply (f_equal String.length) in H. cbn in H.
    rewrite string_length_append in H. lia.
  - cbn in H. injection H as -> H. f_equal. auto.
Qed.

Lemma prefix_String c (p q : string) :
  String.prefix (String c p) (String c q) = String.prefix p q.
Proof. cbn. now destruct (ascii_dec c c). Qed.



(** ** Analysis and selection *)

Lemma mapM_inr {A B} (f : A -> result (list B)) l : forall ys,
  mapM f l = inr ys ->
  forall r, In r (concat ys) <-> exists x y, In x l /\ f x = inr y /\ In r y.
Proof.
  induction l as [|x l IH]; intros ys H r; cbn in H.
  - injection H as <-. cbn. split; [contradiction | now intros (? & ? & [] & _)].
  - destruct (f x) as [e|y] eqn:Ex; [discriminate|]. cbn in H.
    destruct (mapM f l) as [e|ys'] eqn:El; [discriminate|]. cbn in H.
    injection H as <-. cbn [concat]. rewrite in_app_iff, (IH ys' eq_refl). split.
    + intros [Hr|(x' & y' & Hx' & Hf & Hr)].
      * exists x, y. repeat split; auto. now left.
      * exists x', y'. repeat split; auto. now right.
    + intros (x' & y' & [<-|Hx'] & Hf & Hr).
      * left. congruence.
      * right. eauto.
Qed.

Lemma mapM_In {A B} (f : A -> result B) l : forall ys x,
  mapM f l = inr ys -> In x l -> exists y, f x = inr y.
Proof.
  induction l as [|x' l IH]; intros ys x H Hx; [contradiction|].
  cbn in H. destruct (f x') as [e|y] eqn:Ex; [discriminate|]. cbn in H.
  destruct (mapM f l) as [e|ys'] eqn:El; [discriminate|].
  destruct Hx as [<-|Hx]; eauto.
Qed.

Lemma mapM_total {A B} (f : A -> result B) l :
  (forall x, In x l -> exists y, f x = inr y) -> exists ys, mapM f l = inr ys.
Proof.
  induction l as [|x l IH]; intros H; cbn.
  - eexists. reflexivity.
  - destruct (H x (or_introl eq_refl)) as (y & ->).
    destruct IH as (ys & ->); [intros; apply H; now right|].
    eexists. reflexivity.
Qed.

Lemma In_length {A} (x : A) l : In x l -> List.length l <> 0.
Proof. destruct l; [contradiction | discriminate]. Qed.

Section Properties.

Context {L : Library}.

Lemma analyze_code_Facts s a :
  analyze_code s = Facts a <->
  exists tree, parse s = inr tree /\ analyze_tree tree = inr a.
Proof.
  unfold analyze_code. destruct (parse s) as [e|tree]; cbn.
  - split; [discriminate | now intros (? & ? & _)].
  - split.
    + destruct (analyze_tree tree) as [e|a'] eqn:E; [discriminate|].
      intros [= <-]. eauto.
    + intros (t & Ht & Ha). injection Ht as <-. now rewrite Ha.
Qed.

Lemma analyze_code_tree s tree a :
  parse s = inr tree -> analyze_code s = Facts a -> analyze_tree tree = inr a.
Proof.
  intros Hp Ha. apply analyze_code_Facts in Ha. destruct Ha as (t & Ht & Ha).
  congruence.
Qed.

Lemma analyze_tree_inr tree a :
  analyze_tree tree = inr a ->
  exists found,
    mapM import_of (walk tree) = inr found /\
    a = {| functions := flat_map function_of (walk tree);
           variables := flat_map variable_of (walk tree);
           loops := flat_map loop_of (walk tree);
           conditionals := flat_map conditional_of (walk tree);
           imports := concat found;
           docstrings := extract_docstrings tree |}.
Proof.
  unfold analyze_tree. destruct (mapM import_of (walk tree)) as [e|found]; cbn.
  - discriminate.
  - intros [= <-]. eauto.
Qed.

Lemma choice_nil g :
  choice [] g = (raise (IndexError "Cannot choose from an empty sequence"), g).
Proof. reflexivity. Qed.

Lemma choice_In {R : RandomInRange L} seq g :
  seq <> [] -> exists q g', choice seq g = (ret q, g') /\ In q seq.
Proof.
  intros Hseq. destruct seq as [|x seq]; [congruence|].
  unfold choice. pose proof (randbelow_lt g (List.length (x :: seq))) as Hlt.
  destruct (randbelow g (List.length (x :: seq))) as [i g'].
  cbn [fst] in Hlt. unfold getitem_list.
  destruct (nth_error (x :: seq) i) as [q|] eqn:E.
  - exists q, g'. split; [reflexivity | eapply nth_error_In; eassumption].
  - apply nth_error_None in E. cbn [List.length] in *. lia.
Qed.

Lemma generate_questions_Facts s a g :
  analyze_code s = Facts a ->
  generate_questions s g
  = (let (question, g') := choice (unique (rendered_questions a)) g in
     (q <- question ;; ret (VStr q), g')).
Proof.
  intros H. unfold generate_questions. rewrite H, candidate_questions_eq.
  reflexivity.
Qed.

Lemma generate_questions_Error s error g :
  analyze_code s = Error error ->
  generate_questions s g = (ret (VList [("Error analyzing code: " ++ error)%string]), g).
Proof. intros H. unfold generate_questions. now rewrite H. Qed.

Lemma rendered_questions_nil a : rendered_questions a = [] <-> has_fact a = false.
Proof.
  unfold has_fact, rendered_questions. rewrite negb_false_iff, Nat.eqb_eq.
  destruct a as [fs vs ls cs ims ds]; cbn [functions variables loops conditionals imports docstrings].
  split.
  - intros H. repeat (apply app_eq_nil in H; destruct H as [? H]).
    destruct fs; [|discriminate].
    repeat match goal with
           | H : map _ ?l = [] |- _ => apply map_eq_nil in H; subst l
           end.
    reflexivity.
  - intros H.
    destruct fs; [|cbn in H; lia]. destruct vs; [|cbn in H; lia].
    destruct ls; [|cbn in H; lia]. destruct cs; [|cbn in H; lia].
    destruct ims; [|cbn in H; lia]. destruct ds; [|cbn in H; lia].
    reflexivity.
Qed.

Lemma analyze_code_succeeds s tree :
  parse s = inr tree -> imports_listed tree -> exists a, analyze_code s = Facts a.
Proof.
  intros Hp Hw. unfold analyze_code, analyze_tree. rewrite Hp. cbn [bind].
  destruct (mapM_total import_of (walk tree)) as (found & ->).
  - intros n Hn. apply walk_In in Hn.
    destruct n; try (eexists; reflexivity).
    destruct names; [now apply Hw in Hn | eexists; reflexivity].
  - eexists. reflexivity.
Qed.

Lemma fact_node_has_fact tree a n :
  analyze_tree tree = inr a ->
  descendant tree n ->
  is_fact_node n = true \/ docstring_of n <> [] ->
  has_fact a = true.
Proof.
  intros Ha Hn Hc. apply walk_In in Hn.
  apply analyze_tree_inr in Ha. destruct Ha as (found & Hf & ->).
  unfold has_fact. rewrite negb_true_iff, Nat.eqb_neq.
  cbn [functions variables loops conditionals imports docstrings].
  destruct Hc as [Hc|Hc].
  - destruct n; try discriminate.
    + assert (H : List.length (flat_map function_of (walk tree)) <> 0);
        [|lia].
      eapply In_length, in_flat_map. eexists. split; [eassumption | now left].
    + assert (H : List.length (flat_map loop_of (walk tree)) <> 0); [|lia].
      eapply In_length, in_flat_map. eexists. split; [eassumption | now left].
    + assert (H : List.length (flat_map loop_of (walk tree)) <> 0); [|lia].
      eapply In_length, in_flat_map. eexists. split; [eassumption | now left].
    + assert (H : List.length (flat_map conditional_of (walk tree)) <> 0);
        [|lia].
      eapply In_length, in_flat_map. eexists. split; [eassumption | now left].
    + assert (H : List.length (concat found) <> 0); [|lia].
      destruct (mapM_In _ _ _ _ Hf Hn) as (y & Hy).
      destruct names as [|first others]; [discriminate|].
      eapply In_length, (mapM_inr _ _ _ Hf).
      do 2 eexists. split; [eassumption|]. split; [exact Hy|].
      cbn in Hy. injection Hy as <-. now left.
    + assert (H : List.length (flat_map variable_of (walk tree)) <> 0);
        [|lia].
      eapply In_length, in_flat_map. eexists. split; [eassumption | now left].
  - assert (H : List.length (extract_docstrings tree) <> 0); [|lia].
    destruct (docstring_of n) as [|doc rest] eqn:E; [congruence|].
    eapply In_length, in_flat_map. eexists. split; [eassumption|].
    rewrite E. now left.
Qed.

(** ** What the analyzer records *)

Lemma flat_map_function_of_length l :
  List.length (flat_map function_of l) = List.length (filter is_FunctionDef l).
Proof.
  induction l as [|n l IH]; trivial.
  cbn [flat_map filter]. rewrite length_app, IH. now destruct n.
Qed.

Lemma functions_In tree a r :
  analyze_tree tree = inr a ->
  In r (functions a) <->
  exists name args body decorator_list returns type_params lineno,
    descendant tree (FunctionDef name args body decorator_list returns type_params lineno)
    /\ r = {| fn_name := name; fn_lineno := lineno;
              fn_args := map arg_arg (args_args args) |}.
Proof.
  intros Ha. apply analyze_tree_inr in Ha. destruct Ha as (found & _ & ->).
  cbn [functions]. rewrite in_flat_map. split.
  - intros (n & Hn & Hr). apply walk_In in Hn.
    destruct n; try contradiction. destruct Hr as [<-|[]].
    repeat eexists. eassumption.
  - intros (name & args & body & ds & returns & tps & lineno & Hd & ->).
    apply walk_In in Hd. eexists. split; [eassumption | now left].
Qed.

Lemma variables_In tree a r :
  analyze_tree tree = inr a ->
  In r (variables a) <->
  exists id ctx lineno,
    descendant tree (Name id ctx lineno)
    /\ r = {| var_name := id; var_lineno := lineno |}.
Proof.
  intros Ha. apply analyze_tree_inr in Ha. destruct Ha as (found & _ & ->).
  cbn [variables]. rewrite in_flat_map. split.
  - intros (n & Hn & Hr). apply walk_In in Hn.
    destruct n; try contradiction. destruct Hr as [<-|[]].
    repeat eexists. eassumption.
  - intros (id & ctx & lineno & Hd & ->).
    apply walk_In in Hd. eexists. split; [eassumption | now left].
Qed.

Lemma imports_In tree a r :
  analyze_tree tree = inr a ->
  In r (imports a) <->
  exists first others lineno,
    descendant tree (Import (first :: others) lineno)
    /\ r = {| imp_name := alias_name first; imp_lineno := lineno |}.
Proof.
  intros Ha. apply analyze_tree_inr in Ha. destruct Ha as (found & Hf & ->).
  cbn [imports]. rewrite (mapM_inr _ _ _ Hf). split.
  - intros (n & y & Hn & Hy & Hr). apply walk_In in Hn.
    destruct n; cbn in Hy; try (injection Hy as <-; contradiction).
    destruct names as [|first others]; [discriminate|].
    cbn in Hy. injection Hy as <-. destruct Hr as [<-|[]].
    repeat eexists. eassumption.
  - intros (first & others & lineno & Hd & ->).
    apply walk_In in Hd. do 2 eexists. split; [eassumption|].
    split; [reflexivity | now left].
Qed.

Lemma rendered_without_imports a q :
  imports a = [] -> In q (rendered_questions a) -> asks_why q = false.
Proof.
  unfold rendered_questions. intros -> H. cbn [map app] in H.
  repeat (apply in_app_or in H; destruct H as [H|H]).
  - apply in_flat_map in H. destruct H as (func & _ & H).
    unfold questions_of_function in H.
    destruct (fn_args func); cbn [In] in H; intuition (subst; reflexivity).
  - apply in_map_iff in H. destruct H as (? & <- & _). reflexivity.
  - apply in_map_iff in H. destruct H as (? & <- & _). reflexivity.
  - apply in_map_iff in H. destruct H as (? & <- & _). reflexivity.
  - apply in_map_iff in H. destruct H as (? & <- & _). reflexivity.
Qed.

(** C2, amended. A snippet that parses is analysed, and its fact set has
    one Function record for each [FunctionDef] node of the tree, that is
    for each plain [def], and for no other node: the records are those of
    the [FunctionDef] nodes at or below the root, as many as [ast.walk]
    meets, each node of the tree being met once.  A record holds the
    declared name, the line of the definition and the names of [args.args]
    in order, the parameters that can be passed by position or by
    keyword. *)
Theorem function_records s tree :
  parse s = inr tree ->
  imports_listed tree ->
  exists a,
    analyze_code s = Facts a
    /\ (forall r,
          In r (functions a) <->
          exists name args body decorator_list returns type_params lineno,
            descendant tree
              (FunctionDef name args body decorator_list returns type_params lineno)
            /\ r = {| fn_name := name; fn_lineno := lineno;
                      fn_args := map arg_arg (args_args args) |})
    /\ List.length (functions a) = List.length (filter is_FunctionDef (walk tree))
    /\ (forall n, In n (walk tree) <-> descendant tree n)
    /\ List.length (walk tree) = size tree.
Proof.
  intros Hp Hw. destruct (analyze_code_succeeds _ _ Hp Hw) as (a & Ha).
  pose proof (analyze_code_tree _ _ _ Hp Ha) as Ht.
  exists a. repeat split.
  - exact Ha.
  - now apply functions_In.
  - now apply functions_In.
  - apply analyze_tree_inr in Ht. destruct Ht as (found & _ & ->).
    apply flat_map_function_of_length.
  - now apply walk_In.
  - now apply walk_In.
  - apply walk_length.
Qed.

(** C8. A snippet that parses is analysed, and its Import records are
    those of the [Import] nodes of the tree; the record of a node holds the
    name of the first module the statement lists, whatever follows it.  The
    loop over the Import records appends the import question of that name,
    the same question whatever the line of the record. *)
Theorem import_keeps_first_module s tree :
  parse s = inr tree ->
  imports_listed tree ->
  exists a,
    analyze_code s = Facts a
    /\ (forall r,
          In r (imports a) <->
          exists first others lineno,
            descendant tree (Import (first :: others) lineno)
            /\ r = {| imp_name := alias_name first; imp_lineno := lineno |})
    /\ (forall imp questions,
          append_import imp questions
          = ret (questions ++ [import_question (imp_name imp)]))
    /\ (forall name lineno lineno' questions,
          append_import {| imp_name := name; imp_lineno := lineno |} questions
          = append_import {| imp_name := name; imp_lineno := lineno' |} questions).
Proof.
  intros Hp Hw. destruct (analyze_code_succeeds _ _ Hp Hw) as (a & Ha).
  pose proof (analyze_code_tree _ _ _ Hp Ha) as Ht.
  exists a. repeat split.
  - exact Ha.
  - now apply imports_In.
  - now apply imports_In.
Qed.

(** C9. If the parser gives the tree of [x = 1], the analyzer finds one
    Variable record, [x] at line 1, and nothing else, and the deduplicated
    list holds the question about [x]; a [Name] node gives its record in
    every context, read or written. *)
Theorem assignment_target_is_a_variable :
  parse Samples.assign_snippet = inr Samples.assign_tree ->
  analyze_code Samples.assign_snippet = Facts Samples.assign_facts
  /\ (exists questions,
        candidate_questions Samples.assign_facts = ret questions
        /\ unique questions = ["What is the role of the variable 'x' at line 1?"])
  /\ forall id ctx lineno,
        variable_of (Name id ctx lineno)
        = [ {| var_name := id; var_lineno := lineno |} ].
Proof.
  intros Hp. repeat split.
  - unfold analyze_code. rewrite Hp. reflexivity.
  - eexists. split; reflexivity.
Qed.

(** C10. A [from ... import] statement gives no Import record: a snippet
    that parses and whose tree has no [Import] node is analysed, its fact
    set has no Import record, and no import question is in the deduplicated
    list, whatever module is asked about. *)
Theorem from_import_is_not_recorded s tree :
  parse s = inr tree ->
  (forall names lineno, ~ descendant tree (Import names lineno)) ->
  (forall module names level lineno,
      import_of (ImportFrom module names level lineno) = ret [])
  /\ exists a,
       analyze_code s = Facts a
       /\ imports a = []
       /\ forall questions name,
            candidate_questions a = ret questions ->
            ~ In (import_question name) (unique questions).
Proof.
  intros Hp Hno. split; [reflexivity|].
  destruct (analyze_code_succeeds s tree Hp) as (a & Ha); [intros l; apply Hno|].
  pose proof (analyze_code_tree _ _ _ Hp Ha) as Ht.
  assert (Hi : imports a = []).
  { destruct (imports a) as [|r rest] eqn:E; trivial.
    assert (Hr : In r (imports a)) by (rewrite E; now left).
    apply (imports_In _ _ _ Ht) in Hr.
    destruct Hr as (first & others & lineno & Hd & _).
    now apply Hno in Hd. }
  exists a. repeat split; trivial.
  intros questions name Hq Hin.
  rewrite candidate_questions_eq in Hq. injection Hq as <-.
  rewrite unique_In in Hin. apply (rendered_without_imports _ _ Hi) in Hin.
  discriminate.
Qed.

(** ** The questions *)



(** C7. [list(dict.fromkeys(questions))] keeps the entry at a position
    exactly when its string occurs at no earlier position, in the order of
    the list: the result has no repeats, holds the same strings as the
    list, and is unchanged when a later repeat of a string is taken out of
    the list, so that a string rendered twice fills one entry, where it came
    first. *)
Theorem deduplication_keeps_first_occurrences (questions : list string) :
  unique questions = keep_first_occurrences questions
  /\ NoDup (unique questions)
  /\ (forall q, In q (unique questions) <-> In q questions)
  /\ (forall before q between after,
        unique (before ++ q :: between ++ q :: after)
        = unique (before ++ q :: between ++ after))
  /\ (forall before q after,
        unique (before ++ q :: after)
        = unique before ++ (if mem q before then [] else [q])
          ++ first_occurrences (before ++ [q]) after).
Proof.
  repeat split.
  - apply unique_keep_first.
  - apply unique_NoDup.
  - now apply unique_In.
  - now apply unique_In.
  - intros before q between after. apply unique_repeat.
  - intros before q after.
    rewrite !unique_first_occurrences, first_occurrences_app.
    cbn [first_occurrences app]. destruct (mem q before) eqn:Hq; trivial.
    cbn [app]. f_equal. apply first_occurrences_ext. intros y.
    rewrite mem_app. cbn. destruct (String.eqb y q) eqn:Ey.
    + apply String.eqb_eq in Ey. subst. rewrite Hq. reflexivity.
    + now rewrite !orb_false_r.
Qed.

(** ** The answer *)

(** C4, amended. When the tree of a snippet that parses holds a node of
    a class the analyzer records ([FunctionDef], [Name], [For], [While],
    [If] or [Import]) or a module or [FunctionDef] with a docstring that is
    not empty, then, whatever the random generator draws within its range,
    [generate_questions] returns one question, a member of the deduplicated
    list of the questions rendered from the fact set of the snippet; it does
    not raise. *)
Theorem some_fact_gives_a_question {R : RandomInRange L} s tree g :
  parse s = inr tree ->
  imports_listed tree ->
  (exists n, descendant tree n
             /\ (is_fact_node n = true \/ docstring_of n <> [])) ->
  exists a questions q g',
    analyze_code s = Facts a
    /\ candidate_questions a = ret questions
    /\ generate_questions s g = (ret (VStr q), g')
    /\ In q (unique questions)
    /\ forall e g'', generate_questions s g <> (raise e, g'').
Proof.
  intros Hp Hw (n & Hn & Hc).
  destruct (analyze_code_succeeds _ _ Hp Hw) as (a & Ha).
  pose proof (analyze_code_tree _ _ _ Hp Ha) as Ht.
  pose proof (fact_node_has_fact _ _ _ Ht Hn Hc) as Hf.
  assert (Hne : unique (rendered_questions a) <> []).
  { rewrite unique_nil, rendered_questions_nil, Hf. discriminate. }
  destruct (choice_In _ g Hne) as (q & g' & Hq & Hin).
  exists a, (rendered_questions a), q, g'.
  rewrite (generate_questions_Facts _ _ _ Ha), Hq. cbn.
  repeat split; trivial.
  - apply candidate_questions_eq.
  - discriminate.
Qed.

(** C5. If the parser gives the tree of [add_snippet], the analyzer finds
    the function [add] at line 1 with arguments [a] and [b], the variables
    [a] and [b] at line 2 and nothing else; the deduplicated list holds the
    four questions below, and [generate_questions] returns one of them. *)
Theorem add_example {R : RandomInRange L} :
  parse Samples.add_snippet = inr Samples.add_tree ->
  analyze_code Samples.add_snippet = Facts Samples.add_facts
  /\ (exists questions,
        candidate_questions Samples.add_facts = ret questions
        /\ unique questions = Samples.add_pool)
  /\ List.length Samples.add_pool = 4
  /\ forall g, exists q g',
        generate_questions Samples.add_snippet g = (ret (VStr q), g')
        /\ In q Samples.add_pool.
Proof.
  intros Hp.
  assert (Ha : analyze_code Samples.add_snippet = Facts Samples.add_facts)
    by (unfold analyze_code; rewrite Hp; reflexivity).
  repeat split.
  - exact Ha.
  - exists Samples.add_pool. split; reflexivity.
  - intros g. rewrite (generate_questions_Facts _ _ _ Ha).
    change (unique (rendered_questions Samples.add_facts)) with Samples.add_pool.
    destruct (choice_In Samples.add_pool g) as (q & g' & Hc & Hq); [discriminate|].
    exists q, g'. rewrite Hc. split; [reflexivity | exact Hq].
Qed.

(** ** Failures *)

(** C1, amended. When a snippet parses and is analysed, and the
    deduplicated list of its rendered questions is empty,
    [generate_questions] does not return: the [IndexError] that
    [random.choice] raises on an empty sequence escapes it, no error of the
    program's own being raised, and no random number is drawn.  With a
    random generator that draws within its range this is the only exception
    that [generate_questions] raises, and it raises it for no other
    snippet: one that raises has parsed and has an empty list, and a
    snippet that does not parse is answered by a returned value. *)
Theorem empty_pool_raises {R : RandomInRange L} s tree a questions g :
  parse s = inr tree ->
  analyze_code s = Facts a ->
  candidate_questions a = ret questions ->
  unique questions = [] ->
  generate_questions s g
  = (raise (IndexError "Cannot choose from an empty sequence"), g)
  /\ (forall v g', generate_questions s g <> (ret v, g'))
  /\ (forall s' g0 e g1,
        generate_questions s' g0 = (raise e, g1) ->
        e = IndexError "Cannot choose from an empty sequence"
        /\ g1 = g0
        /\ exists tree' a' questions',
             parse s' = inr tree'
             /\ analyze_code s' = Facts a'
             /\ candidate_questions a' = ret questions'
             /\ unique questions' = []).
Proof.
  intros _ Ha Hq Hu.
  assert (Hg : generate_questions s g
               = (raise (IndexError "Cannot choose from an empty sequence"), g)).
  { unfold generate_questions. rewrite Ha, Hq. unfold ret.
    cbv beta iota zeta. rewrite Hu. reflexivity. }
  rewrite Hg. split; [reflexivity|]. split; [discriminate|].
  intros s' g0 e g1 H'. destruct (analyze_code s') as [a'|error] eqn:Ha'.
  - rewrite (generate_questions_Facts _ _ _ Ha') in H'.
    destruct (unique (rendered_questions a')) as [|q pool] eqn:Hp.
    + cbn in H'. injection H' as <- <-.
      split; [reflexivity|]. split; [reflexivity|].
      pose proof Ha' as Hf. apply analyze_code_Facts in Hf.
      destruct Hf as (tree' & Hp' & Ht').
      exists tree', a', (rendered_questions a').
      split; [exact Hp'|]. split; [reflexivity|].
      split; [apply candidate_questions_eq | exact Hp].
    + destruct (choice_In (q :: pool) g0) as (q' & g' & Hc & _); [discriminate|].
      rewrite Hc in H'. discriminate H'.
  - rewrite (generate_questions_Error _ _ _ Ha') in H'. discriminate H'.
Qed.

(** C3. When the parser raises on a snippet, [analyze_code] returns the
    error dict holding the message of that exception and no fact set, and
    [generate_questions] returns the one-element list with that message
    without rendering a question or drawing a random number. *)
Theorem invalid_source_is_reported s e :
  parse s = inl e ->
  analyze_code s = Error (str_exn e)
  /\ (forall a, analyze_code s <> Facts a)
  /\ (forall g,
        generate_questions s g
        = (ret (VList [("Error analyzing code: " ++ str_exn e)%string]), g)).
Proof.
  intros Hp.
  assert (Ha : analyze_code s = Error (str_exn e))
    by (unfold analyze_code; now rewrite Hp).
  repeat split.
  - exact Ha.
  - intros a. rewrite Ha. discriminate.
  - intros g. now apply generate_questions_Error.
Qed.

End Properties.

(** ** The properties on the sample snippets *)

Import Samples.

(** Membership in [walk] of a sample tree, decided by listing the walk. *)
Ltac absent_from_walk H :=
  apply walk_In in H; cbn in H;
  repeat (destruct H as [H|H]; [discriminate|]); exact H.

Ltac child_of_root :=
  eapply descendant_child; [now left | apply descendant_self].

Lemma sample_random_in_range : RandomInRange sample_library.
Proof. intros g n Hn. cbn. apply Nat.mod_upper_bound. lia. Qed.

Lemma function_records_witness :
  exists a,
    analyze_code (L := sample_library) add_snippet = Facts a
    /\ (forall r,
          In r (functions a) <->
          exists name args body decorator_list returns type_params lineno,
            descendant add_tree
              (FunctionDef name args body decorator_list returns type_params lineno)
            /\ r = {| fn_name := name; fn_lineno := lineno;
                      fn_args := map arg_arg (args_args args) |})
    /\ List.length (functions a)
       = List.length (filter is_FunctionDef (walk add_tree))
    /\ (forall n, In n (walk add_tree) <-> descendant add_tree n)
    /\ List.length (walk add_tree) = size add_tree.
Proof.
  apply (function_records (L := sample_library) add_snippet add_tree).
  - reflexivity.
  - intros lineno H. absent_from_walk H.
Defined.

Lemma import_keeps_first_module_witness :
  exists a,
    analyze_code (L := sample_library) import_snippet = Facts a
    /\ (forall r,
          In r (imports a) <->
          exists first others lineno,
            descendant import_tree (Import (first :: others) lineno)
            /\ r = {| imp_name := alias_name first; imp_lineno := lineno |})
    /\ (forall imp questions,
          append_import imp questions
          = ret (questions ++ [import_question (imp_name imp)]))
    /\ (forall name lineno lineno' questions,
          append_import {| imp_name := name; imp_lineno := lineno |} questions
          = append_import {| imp_name := name; imp_lineno := lineno' |} questions).
Proof.
  apply (import_keeps_first_module (L := sample_library) import_snippet import_tree).
  - reflexivity.
  - intros lineno H. absent_from_walk H.
Defined.

Lemma assignment_target_is_a_variable_witness :
  analyze_code (L := sample_library) assign_snippet = Facts assign_facts
  /\ (exists questions,
        candidate_questions assign_facts = ret questions
        /\ unique questions = ["What is the role of the variable 'x' at line 1?"])
  /\ forall id ctx lineno,
        variable_of (Name id ctx lineno)
        = [ {| var_name := id; var_lineno := lineno |} ].
Proof.
  apply (assignment_target_is_a_variable (L := sample_library)). reflexivity.
Defined.

Lemma from_import_is_not_recorded_witness :
  (forall module names level lineno,
      import_of (ImportFrom module names level lineno) = ret [])
  /\ exists a,
       analyze_code (L := sample_library) from_import_snippet = Facts a
       /\ imports a = []
       /\ forall questions name,
            candidate_questions a = ret questions ->
            ~ In (import_question name) (unique questions).
Proof.
  apply (from_import_is_not_recorded (L := sample_library) from_import_snippet
           from_import_tree).
  - reflexivity.
  - intros names lineno H. absent_from_walk H.
Defined.

Lemma some_fact_gives_a_question_witness :
  exists a questions q g',
    analyze_code (L := sample_library) import_snippet = Facts a
    /\ candidate_questions a = ret questions
    /\ generate_questions (L := sample_library) import_snippet 0 = (ret (VStr q), g')
    /\ In q (unique questions)
    /\ forall e g'',
         generate_questions (L := sample_library) import_snippet 0 <> (raise e, g'').
Proof.
  apply (some_fact_gives_a_question (L := sample_library)
           (R := sample_random_in_range) import_snippet import_tree 0).
  - reflexivity.
  - intros lineno H. absent_from_walk H.
  - exists (Import [Alias "os" None; Alias "sys" None] 1).
    split; [child_of_root | now left].
Defined.

Lemma add_example_witness :
  analyze_code (L := sample_library) add_snippet = Facts add_facts
  /\ (exists questions,
        candidate_questions add_facts = ret questions /\ unique questions = add_pool)
  /\ List.length add_pool = 4
  /\ forall g, exists q g',
        generate_questions (L := sample_library) add_snippet g = (ret (VStr q), g')
        /\ In q add_pool.
Proof.
  apply (add_example (L := sample_library) (R := sample_random_in_range)).
  reflexivity.
Defined.

Lemma empty_pool_raises_witness :
  generate_questions (L := sample_library) literal_snippet 0
  = (raise (IndexError "Cannot choose from an empty sequence"), 0)
  /\ (forall v g',
        generate_questions (L := sample_library) literal_snippet 0 <> (ret v, g'))
  /\ (forall s' g0 e g1,
        generate_questions (L := sample_library) s' g0 = (raise e, g1) ->
        e = IndexError "Cannot choose from an empty sequence"
        /\ g1 = g0
        /\ exists tree' a' questions',
             parse (Library := sample_library) s' = inr tree'
             /\ analyze_code (L := sample_library) s' = Facts a'
             /\ candidate_questions a' = ret questions'
             /\ unique questions' = []).
Proof.
  apply (empty_pool_raises (L := sample_library) (R := sample_random_in_range)
           literal_snippet literal_tree no_facts []); reflexivity.
Defined.

Lemma invalid_source_is_reported_witness :
  analyze_code (L := sample_library) broken_snippet
  = Error "invalid syntax (<unknown>, line 1)"
  /\ (forall a, analyze_code (L := sample_library) broken_snippet <> Facts a)
  /\ (forall g,
        generate_questions (L := sample_library) broken_snippet g
        = (ret (VList ["Error analyzing code: invalid syntax (<unknown>, line 1)"]), g)).
Proof.
  apply (invalid_source_is_reported (L := sample_library) broken_snippet
           (SyntaxError "invalid syntax (<unknown>, line 1)")).
  reflexivity.
Defined.

(** C1, as first stated, fails on [42]: the snippet parses, its list of
    questions is empty, and what [generate_questions] raises is the
    [IndexError] of [random.choice], not an error of the synthesizer's
    own. *)
Lemma empty_pool_error_is_an_IndexError :
  parse (Library := sample_library) literal_snippet = inr literal_tree
  /\ analyze_code (L := sample_library) literal_snippet = Facts no_facts
  /\ candidate_questions no_facts = ret []
  /\ unique [] = []
  /\ forall g,
       exists e,
         generate_questions (L := sample_library) literal_snippet g = (raise e, g)
         /\ class_of e = "IndexError"
         /\ is_empty_pool_error e = false.
Proof.
  repeat split. intros g.
  exists (IndexError "Cannot choose from an empty sequence").
  repeat split.
Qed.

(** Two functions of one name, each with an argument, render four
    questions and keep three: the second function_args question repeats the
    first. *)
Lemma redefined_functions_share_a_question :
  candidate_questions redefined_facts
  = ret [ "What does the function 'f' at line 1 do?";
          "What are the purposes of the arguments in the function 'f'?";
          "What does the function 'f' at line 3 do?";
          "What are the purposes of the arguments in the function 'f'?" ]
  /\ unique [ "What does the function 'f' at line 1 do?";
              "What are the purposes of the arguments in the function 'f'?";
              "What does the function 'f' at line 3 do?";
              "What are the purposes of the arguments in the function 'f'?" ]
     = [ "What does the function 'f' at line 1 do?";
         "What are the purposes of the arguments in the function 'f'?";
         "What does the function 'f' at line 3 do?" ].
Proof. split; reflexivity. Qed.

(** C2, as first stated, fails on [async def fetch(url): pass]: the tree
    holds a function definition with a parameter, and the analyzer records
    no function. *)
Lemma async_def_yields_no_function_record :
  let definition :=
    AsyncFunctionDef "fetch" (Arguments [] [Arg "url" None 1] None [] [] None [])
      [ Other "Pass" [] ] [] None [] 1 in
  parse (Library := sample_library) async_snippet = inr async_tree
  /\ descendant async_tree definition
  /\ is_function_definition definition = true
  /\ analyze_code (L := sample_library) async_snippet = Facts no_facts
  /\ functions no_facts = [].
Proof.
  cbv zeta. split; [reflexivity|]. split; [child_of_root|].
  repeat split; reflexivity.
Qed.

(** The record of [def first(a, /, b): pass] lists [b] alone: a parameter
    that is positional only is in [args.posonlyargs], which the analyzer
    does not read. *)
Lemma positional_only_parameters_are_not_listed :
  analyze_code (L := sample_library) posonly_snippet
  = Facts {| functions := [ {| fn_name := "first"; fn_lineno := 1;
                               fn_args := ["b"] |} ];
             variables := []; loops := []; conditionals := []; imports := [];
             docstrings := [] |}.
Proof. reflexivity. Qed.

(** C4, as first stated, fails on [from m import n]: the snippet holds an
    import statement, the list of questions is empty and
    [generate_questions] raises. *)
Lemma from_import_gives_no_question :
  let statement := ImportFrom (Some "m") [Alias "n" None] 0 1 in
  parse (Library := sample_library) from_import_snippet = inr from_import_tree
  /\ descendant from_import_tree statement
  /\ is_import_statement statement = true
  /\ analyze_code (L := sample_library) from_import_snippet = Facts no_facts
  /\ candidate_questions no_facts = ret []
  /\ forall g,
       generate_questions (L := sample_library) from_import_snippet g
       = (raise (IndexError "Cannot choose from an empty sequence"), g).
Proof.
  cbv zeta. split; [reflexivity|]. split; [child_of_root|].
  repeat split; reflexivity.
Qed.

(** ** More on what the analyzer records *)

Lemma flat_map_length_filter {A B} (f : A -> list B) (p : A -> bool) l :
  (forall x, List.length (f x) = if p x then 1 else 0) ->
  List.length (flat_map f l) = List.length (filter p l).
Proof.
  intros H. induction l as [|x l IH]; trivial.
  cbn [flat_map filter]. rewrite length_app, IH, H. now destruct (p x).
Qed.

Lemma walk_loop_prefix done : forall fuel todo,
  List.length done <= fuel ->
  walk_loop fuel (done ++ todo)
  = done ++ walk_loop (fuel - List.length done)
                      (todo ++ flat_map iter_child_nodes done).
Proof.
  induction done as [|n done IH]; intros fuel todo H.
  - cbn. now rewrite Nat.sub_0_r, app_nil_r.
  - destruct fuel as [|fuel]; [cbn in H; lia|].
    cbn [app walk_loop List.length flat_map Nat.sub]. f_equal.
    rewrite <- app_assoc, IH by (cbn in H; lia).
    now rewrite <- app_assoc.
Qed.

Lemma total_size_children nodes :
  total_size nodes
  = List.length nodes + total_size (flat_map iter_child_nodes nodes).
Proof.
  induction nodes as [|n nodes IH]; trivial.
  cbn [flat_map List.length]. rewrite total_size_app.
  change (total_size (n :: nodes)) with (size n + total_size nodes).
  rewrite IH, (size_children n). lia.
Qed.

Lemma generation_nil d : generation d [] = [].
Proof. induction d; trivial. Qed.

Lemma walk_loop_generations k : forall fuel nodes,
  total_size nodes <= fuel -> total_size nodes <= k ->
  walk_loop fuel nodes
  = concat (map (fun d => generation d nodes) (seq 0 k)).
Proof.
  induction k as [|k IH]; intros fuel nodes Hf Hk.
  - destruct nodes as [|n nodes]; [now destruct fuel|].
    change (total_size (n :: nodes)) with (size n + total_size nodes) in Hk.
    pose proof (size_pos n). lia.
  - destruct nodes as [|n nodes].
    { destruct fuel; cbn [walk_loop]; symmetry; apply concat_nil_Forall,
        Forall_forall; intros l Hl; apply in_map_iff in Hl;
        destruct Hl as (d & <- & _); apply generation_nil. }
    assert (Hl : 0 < List.length (n :: nodes)) by (cbn; lia).
    remember (n :: nodes) as level. clear Heqlevel.
    pose proof (total_size_children level) as Hc.
    rewrite <- (app_nil_r level) at 1.
    rewrite walk_loop_prefix by lia. cbn [app].
    rewrite (IH _ (flat_map iter_child_nodes level)) by lia.
    cbn [seq map concat generation]. f_equal.
    rewrite <- seq_shift, map_map. reflexivity.
Qed.

Lemma walk_by_depth tree : walk tree = by_depth tree.
Proof. apply walk_loop_generations; cbn; lia. Qed.

Lemma descendant_trans n m d : descendant n m -> descendant m d -> descendant n d.
Proof.
  intros H. induction H as [n|n c m Hc Hm IH]; trivial.
  intros Hd. eapply descendant_child; [eassumption | auto].
Qed.

Section MoreProperties.

Context {L : Library}.

Lemma loops_In tree a r :
  analyze_tree tree = inr a ->
  In r (loops a) <->
  exists n, descendant tree n /\ is_loop n = true /\ loop_of n = [r].
Proof.
  intros Ha. apply analyze_tree_inr in Ha. destruct Ha as (found & _ & ->).
  cbn [loops]. rewrite in_flat_map. split.
  - intros (n & Hn & Hr). apply walk_In in Hn.
    exists n. destruct n; try contradiction; destruct Hr as [<-|[]]; auto.
  - intros (n & Hn & _ & Hr). apply walk_In in Hn.
    exists n. split; [assumption | rewrite Hr; now left].
Qed.

Lemma conditionals_In tree a r :
  analyze_tree tree = inr a ->
  In r (conditionals a) <->
  exists test body orelse lineno,
    descendant tree (If test body orelse lineno) /\ r = {| cond_lineno := lineno |}.
Proof.
  intros Ha. apply analyze_tree_inr in Ha. destruct Ha as (found & _ & ->).
  cbn [conditionals]. rewrite in_flat_map. split.
  - intros (n & Hn & Hr). apply walk_In in Hn.
    destruct n; try contradiction. destruct Hr as [<-|[]].
    repeat eexists. eassumption.
  - intros (test & body & orelse & lineno & Hd & ->).
    apply walk_In in Hd. eexists. split; [eassumption | now left].
Qed.

(** X1. A snippet that parses is analysed, and its Variable records are
    those of the [Name] nodes at or below the root, in any context (read,
    written or deleted); there is one record for each occurrence, so a name
    that occurs twice is recorded twice. *)
Theorem variable_records s tree :
  parse s = inr tree ->
  imports_listed tree ->
  exists a,
    analyze_code s = Facts a
    /\ (forall r,
          In r (variables a) <->
          exists id ctx lineno,
            descendant tree (Name id ctx lineno)
            /\ r = {| var_name := id; var_lineno := lineno |})
    /\ List.length (variables a) = List.length (filter is_Name (walk tree)).
Proof.
  intros Hp Hw. destruct (analyze_code_succeeds _ _ Hp Hw) as (a & Ha).
  pose proof (analyze_code_tree _ _ _ Hp Ha) as Ht.
  exists a. split; [exact Ha|]. split.
  - intros r. now apply variables_In.
  - apply analyze_tree_inr in Ht. destruct Ht as (found & _ & ->).
    apply flat_map_length_filter. now intros [].
Qed.

(** X2. A snippet that parses is analysed, and its Loop records are the
    line numbers of the [For] and [While] nodes at or below the root, one
    record for each such node and none for any other node. *)
Theorem loop_records s tree :
  parse s = inr tree ->
  imports_listed tree ->
  exists a,
    analyze_code s = Facts a
    /\ (forall lineno,
          In {| loop_lineno := lineno |} (loops a) <->
          (exists target iter body orelse,
              descendant tree (For target iter body orelse lineno))
          \/ (exists test body orelse,
                descendant tree (While test body orelse lineno)))
    /\ List.length (loops a) = List.length (filter is_loop (walk tree)).
Proof.
  intros Hp Hw. destruct (analyze_code_succeeds _ _ Hp Hw) as (a & Ha).
  pose proof (analyze_code_tree _ _ _ Hp Ha) as Ht.
  exists a. split; [exact Ha|]. split.
  - intros lineno. rewrite (loops_In _ _ _ Ht). split.
    + intros (n & Hn & Hl & Hr).
      destruct n; try discriminate; cbn in Hr; injection Hr as <-.
      * left. repeat eexists. eassumption.
      * right. repeat eexists. eassumption.
    + intros [(target & iter & body & orelse & Hd)|(test & body & orelse & Hd)];
        eexists; (split; [eassumption|]); split; reflexivity.
  - apply analyze_tree_inr in Ht. destruct Ht as (found & _ & ->).
    apply flat_map_length_filter. now intros [].
Qed.

(** X3. A snippet that parses is analysed, and its Conditional records are
    the line numbers of the [If] nodes at or below the root (an [elif] is
    an [If] node in the [orelse] of another), one record for each. *)
Theorem conditional_records s tree :
  parse s = inr tree ->
  imports_listed tree ->
  exists a,
    analyze_code s = Facts a
    /\ (forall r,
          In r (conditionals a) <->
          exists test body orelse lineno,
            descendant tree (If test body orelse lineno)
            /\ r = {| cond_lineno := lineno |})
    /\ List.length (conditionals a) = List.length (filter is_If (walk tree))
    /\ (forall test body test' body' orelse' lineno lineno',
          descendant tree (If test body [If test' body' orelse' lineno'] lineno) ->
          In {| cond_lineno := lineno |} (conditionals a)
          /\ In {| cond_lineno := lineno' |} (conditionals a)).
Proof.
  intros Hp Hw. destruct (analyze_code_succeeds _ _ Hp Hw) as (a & Ha).
  pose proof (analyze_code_tree _ _ _ Hp Ha) as Ht.
  exists a. split; [exact Ha|]. split; [|split].
  - intros r. now apply conditionals_In.
  - apply analyze_tree_inr in Ht. destruct Ht as (found & _ & ->).
    apply flat_map_length_filter. now intros [].
  - intros test body test' body' orelse' lineno lineno' Hd.
    rewrite !(conditionals_In _ _ _ Ht). split.
    + repeat eexists. eassumption.
    + exists test', body', orelse', lineno'. split; [|reflexivity].
      apply (descendant_trans _ _ _ Hd).
      eapply descendant_child; [|apply descendant_self].
      cbn. right. apply in_or_app. right. now left.
Qed.

Lemma imports_length l : forall found,
  mapM import_of l = inr found ->
  List.length (concat found) = List.length (filter is_Import l).
Proof.
  induction l as [|n l IH]; intros found H; cbn in H.
  - now injection H as <-.
  - destruct (import_of n) as [e|y] eqn:En; [discriminate|]. cbn in H.
    destruct (mapM import_of l) as [e|ys] eqn:El; [discriminate|].
    injection H as <-. cbn [concat filter]. rewrite length_app, (IH ys eq_refl).
    destruct n; cbn in En; try (injection En as <-; reflexivity).
    destruct names; [discriminate|]. cbn in En. now injection En as <-.
Qed.

Lemma fact_nodes_length l :
  List.length (filter is_fact_node l)
  = List.length (filter is_FunctionDef l) + List.length (filter is_Name l)
    + List.length (filter is_loop l) + List.length (filter is_If l)
    + List.length (filter is_Import l).
Proof.
  induction l as [|n l IH]; trivial.
  cbn [filter]. destruct n; cbn [is_fact_node is_FunctionDef is_Name is_loop is_If
                                  is_Import List.length]; lia.
Qed.

(** X4. In the fact set of a snippet that parses, every node of the tree
    counts in at most one of the five categories that hold a line number:
    the records of these categories are as many as the nodes of the classes
    recorded, an [import] statement counting once however many modules it
    lists, and never more than the nodes of the tree. *)
Theorem one_record_per_node s tree :
  parse s = inr tree ->
  imports_listed tree ->
  exists a,
    analyze_code s = Facts a
    /\ List.length (imports a) = List.length (filter is_Import (walk tree))
    /\ List.length (functions a) + List.length (variables a)
       + List.length (loops a) + List.length (conditionals a)
       + List.length (imports a)
       = List.length (filter is_fact_node (walk tree))
    /\ List.length (functions a) + List.length (variables a)
       + List.length (loops a) + List.length (conditionals a)
       + List.length (imports a)
       <= size tree.
Proof.
  intros Hp Hw. destruct (analyze_code_succeeds _ _ Hp Hw) as (a & Ha).
  pose proof (analyze_code_tree _ _ _ Hp Ha) as Ht.
  apply analyze_tree_inr in Ht. destruct Ht as (found & Hf & ->).
  eexists. split; [exact Ha|].
  cbn [functions variables loops conditionals imports].
  assert (Hsum : List.length (flat_map function_of (walk tree))
                 + List.length (flat_map variable_of (walk tree))
                 + List.length (flat_map loop_of (walk tree))
                 + List.length (flat_map conditional_of (walk tree))
                 + List.length (concat found)
                 = List.length (filter is_fact_node (walk tree))).
  { rewrite fact_nodes_length, (imports_length _ _ Hf).
    rewrite (flat_map_length_filter function_of is_FunctionDef) by now intros [].
    rewrite (flat_map_length_filter variable_of is_Name) by now intros [].
    rewrite (flat_map_length_filter loop_of is_loop) by now intros [].
    rewrite (flat_map_length_filter conditional_of is_If) by now intros [].
    reflexivity. }
  split; [now apply imports_length|]. split; [exact Hsum|].
  rewrite Hsum, <- walk_length. apply filter_length_le.
Qed.

Lemma imports_flat_map l : forall found,
  mapM import_of l = inr found -> concat found = flat_map import_records l.
Proof.
  induction l as [|n l IH]; intros found H; cbn in H.
  - now injection H as <-.
  - cbn [flat_map]. unfold import_records at 1.
    destruct (import_of n) as [e|y] eqn:En; [discriminate|]. cbn in H.
    destruct (mapM import_of l) as [e|ys] eqn:El; [discriminate|].
    injection H as <-. cbn [concat]. now rewrite (IH ys eq_refl).
Qed.

(** X5. The records of every category, functions, variables, loops,
    conditionals, imports and docstrings, come in the order of a
    breadth-first walk: those of the root first, then those of its children
    from left to right, then those one level further down, and so on; so a
    record of a node comes before the records of all nodes nested
    deeper. *)
Theorem records_by_depth s tree :
  parse s = inr tree ->
  imports_listed tree ->
  exists a,
    analyze_code s = Facts a
    /\ walk tree = by_depth tree
    /\ functions a = flat_map function_of (by_depth tree)
    /\ variables a = flat_map variable_of (by_depth tree)
    /\ loops a = flat_map loop_of (by_depth tree)
    /\ conditionals a = flat_map conditional_of (by_depth tree)
    /\ imports a = flat_map import_records (by_depth tree)
    /\ docstrings a = flat_map docstring_of (by_depth tree).
Proof.
  intros Hp Hw. destruct (analyze_code_succeeds _ _ Hp Hw) as (a & Ha).
  pose proof (analyze_code_tree _ _ _ Hp Ha) as Ht.
  apply analyze_tree_inr in Ht. destruct Ht as (found & Hf & ->).
  eexists. split; [exact Ha|].
  cbn [functions variables loops conditionals imports docstrings].
  unfold extract_docstrings. rewrite (imports_flat_map _ _ Hf), walk_by_depth.
  repeat split.
Qed.

Lemma first_statement_docstring (body : list node) d :
  match body with
  | Expr (Constant (CStr text) _) _ :: _ => Some (cleandoc text)
  | _ => None
  end = Some d ->
  exists text lineno lineno' rest,
    body = Expr (Constant (CStr text) lineno) lineno' :: rest
    /\ d = cleandoc text.
Proof.
  intros H.
  repeat match type of H with
         | match ?x with _ => _ end = Some _ => destruct x; try discriminate
         end.
  injection H as <-. do 4 eexists. split; reflexivity.
Qed.

Lemma docstring_of_In n doc :
  In doc (docstring_of n) <->
  exists text lineno lineno' rest,
    documented_body n
    = Some (Expr (Constant (CStr text) lineno) lineno' :: rest)
    /\ cleandoc text <> EmptyString
    /\ doc = strip (cleandoc text).
Proof.
  split.
  - intros H.
    destruct n; cbn [docstring_of get_docstring] in H; try contradiction;
      match type of H with
      | In _ (match ?x with _ => _ end) => destruct x as [d|] eqn:Ed; [|contradiction]
      end;
      apply first_statement_docstring in Ed;
      destruct Ed as (text & ln & ln' & rest & -> & ->);
      (destruct (String.eqb (cleandoc text) EmptyString) eqn:E; [contradiction|]);
      destruct H as [<-|[]]; exists text, ln, ln', rest;
      (split; [reflexivity|]); (split; [|reflexivity]);
      now apply String.eqb_neq.
  - intros (text & lineno & lineno' & rest & Hb & Hne & ->).
    apply String.eqb_neq in Hne.
    destruct n; try discriminate; cbn in Hb; injection Hb as ->;
      cbn; rewrite Hne; now left.
Qed.

Lemma docstring_of_length n :
  List.length (docstring_of n) <= if is_Module n || is_FunctionDef n then 1 else 0.
Proof.
  destruct n; cbn; trivial;
    repeat match goal with
           | |- context [match ?x with _ => _ end] => destruct x; cbn; try lia
           end.
Qed.

(** X6. The docstrings of a snippet that parses are taken from the module
    and from the plain [def]s only, and only where the first statement of
    the body is an expression statement holding a string constant whose
    cleaned text is not empty; the record is that text, stripped.  There is
    at most one for each such node. *)
Theorem docstring_records s tree :
  parse s = inr tree ->
  imports_listed tree ->
  exists a,
    analyze_code s = Facts a
    /\ (forall doc,
          In doc (docstrings a) <->
          exists n text lineno lineno' rest,
            descendant tree n
            /\ documented_body n
               = Some (Expr (Constant (CStr text) lineno) lineno' :: rest)
            /\ cleandoc text <> EmptyString
            /\ doc = strip (cleandoc text))
    /\ List.length (docstrings a)
       <= List.length (filter is_Module (walk tree)) + List.length (functions a).
Proof.
  intros Hp Hw. destruct (analyze_code_succeeds _ _ Hp Hw) as (a & Ha).
  pose proof (analyze_code_tree _ _ _ Hp Ha) as Ht.
  apply analyze_tree_inr in Ht. destruct Ht as (found & Hf & ->).
  eexists. split; [exact Ha|].
  cbn [docstrings functions]. unfold extract_docstrings. split.
  - intros doc. rewrite in_flat_map. split.
    + intros (n & Hn & Hd). apply walk_In in Hn. apply docstring_of_In in Hd.
      destruct Hd as (text & l & l' & rest & Hd). exists n, text, l, l', rest.
      tauto.
    + intros (n & text & l & l' & rest & Hn & Hd). apply walk_In in Hn.
      exists n. split; [assumption|]. apply docstring_of_In. eauto.
  - rewrite (flat_map_length_filter function_of is_FunctionDef) by now intros [].
    generalize (walk tree). intros l. induction l as [|n l IH]; trivial.
    cbn [flat_map filter]. rewrite length_app.
    pose proof (docstring_of_length n) as Hn.
    destruct n; cbn [is_Module is_FunctionDef orb List.length] in *; lia.
Qed.

End MoreProperties.

(** ** More on the questions *)

Lemma int_of_str_int n :
  option_map Nat.of_uint (NilZero.uint_of_string (str_int n)) = Some n.
Proof.
  unfold str_int. pose proof (DecimalNat.Unsigned.of_to n) as Hn.
  destruct (Nat.to_uint n) as [| | | | | | | | | |] eqn:E;
    try (rewrite NilZero.usu by discriminate; cbn [option_map]; now rewrite Hn).
  rewrite NilZero.usu_nil. cbn [option_map]. now rewrite <- Hn.
Qed.

Lemma str_int_inj n m : str_int n = str_int m -> n = m.
Proof.
  intros H. pose proof (int_of_str_int n) as Hn. rewrite H, int_of_str_int in Hn.
  congruence.
Qed.

Lemma format_literal_prefix template : forall kw q,
  format_from template None kw = ret q ->
  String.prefix (literal_prefix template) q = true.
Proof.
  induction template as [|c rest IH]; intros kw q H; cbn in H |- *.
  - now destruct q.
  - destruct (Ascii.eqb c "{"); [now destruct q|].
    destruct (Ascii.eqb c "}"); [discriminate|].
    destruct (format_from rest None kw) as [e|s] eqn:E; [discriminate|].
    cbn in H. injection H as <-. rewrite prefix_String. eauto.
Qed.

Lemma prefix_compatible (p1 : string) : forall p2 q : string,
  String.prefix p1 q = true -> String.prefix p2 q = true ->
  String.prefix p1 p2 || String.prefix p2 p1 = true.
Proof.
  induction p1 as [|c1 p1 IH]; intros p2 q H1 H2.
  - now destruct p2.
  - destruct p2 as [|c2 p2]; [reflexivity|].
    destruct q as [|c q]; [discriminate|].
    cbn in H1, H2 |- *.
    destruct (ascii_dec c1 c) as [->|]; [|discriminate].
    destruct (ascii_dec c2 c) as [->|]; [|discriminate].
    destruct (ascii_dec c c); [|congruence]. eauto.
Qed.

Lemma render_template key kw q :
  render key kw = ret q ->
  exists template,
    lookup key question_templates = Some template
    /\ String.prefix (literal_prefix template) q = true.
Proof.
  unfold render, getitem_dict.
  destruct (lookup key question_templates) as [template|]; [|discriminate].
  cbn [bind ret]. intros H. exists template. split; trivial.
  eapply format_literal_prefix. exact H.
Qed.

Lemma lookup_template key template :
  lookup key question_templates = Some template ->
  In (key, template) question_templates.
Proof.
  unfold question_templates. cbn [lookup].
  repeat match goal with
         | |- context [String.eqb ?k key] =>
             destruct (String.eqb_spec k key) as [<-|_];
             [intros [= <-]; auto 10 using in_eq, in_cons|]
         end.
  discriminate.
Qed.

Lemma templates_apart key template key' template' :
  In (key, template) question_templates ->
  In (key', template') question_templates ->
  String.prefix (literal_prefix template) (literal_prefix template')
  || String.prefix (literal_prefix template') (literal_prefix template) = true ->
  key = key'.
Proof.
  unfold question_templates. cbn [In]. intros Ht Ht' Hc.
  repeat (destruct Ht as [Ht|Ht];
          [injection Ht as <- <-;
           repeat (destruct Ht' as [Ht'|Ht'];
                   [injection Ht' as <- <-; first [reflexivity | discriminate Hc]|]);
           contradiction|]).
  contradiction.
Qed.

Lemma rendered_same_template key key' kw kw' q :
  render key kw = ret q ->
  render key' kw' = ret q ->
  key = key'.
Proof.
  intros H H'.
  apply render_template in H. destruct H as (t & Ht & Hp).
  apply render_template in H'. destruct H' as (t' & Ht' & Hp').
  apply lookup_template in Ht, Ht'.
  exact (templates_apart _ _ _ _ Ht Ht' (prefix_compatible _ _ _ Hp Hp')).
Qed.

(** X8. The seven templates are told apart by their text: if two
    renderings through the catalog give the same question, whatever values
    were filled in, they used the same template.  So deduplication never
    merges questions of two categories. *)
Theorem one_question_one_template key key' kw kw' q :
  render key kw = ret q ->
  render key' kw' = ret q ->
  key = key'.
Proof.
  intros H H'.
  destruct (render_template _ _ _ H) as (template & Ht & Hp).
  destruct (render_template _ _ _ H') as (template' & Ht' & Hp').
  apply lookup_template in Ht, Ht'.
  pose proof (prefix_compatible _ _ _ Hp Hp') as Hc.
  eapply templates_apart; eassumption.
Qed.

Lemma first_occurrences_length l : forall seen,
  List.length (first_occurrences seen l) <= List.length l.
Proof.
  induction l as [|x l IH]; intros seen; cbn; trivial.
  destruct (mem x seen); cbn; [specialize (IH seen) | specialize (IH (seen ++ [x]))];
    lia.
Qed.

Lemma first_occurrences_apart s l : forall t,
  (forall x, In x l -> mem x s = false) ->
  first_occurrences (s ++ t) l = first_occurrences t l.
Proof.
  induction l as [|x l IH]; intros t H; cbn; trivial.
  rewrite mem_app, (H x (or_introl eq_refl)). cbn [orb].
  destruct (mem x t).
  - apply IH. intros y Hy. apply H. now right.
  - f_equal. rewrite <- app_assoc. apply IH. intros y Hy. apply H. now right.
Qed.

Lemma unique_app_apart l1 l2 :
  (forall x, In x l2 -> ~ In x l1) ->
  unique (l1 ++ l2) = unique l1 ++ unique l2.
Proof.
  intros H. rewrite !unique_first_occurrences, first_occurrences_app. f_equal.
  rewrite <- (app_nil_r ([] ++ l1)). apply first_occurrences_apart.
  intros x Hx. cbn [app]. destruct (mem x l1) eqn:E; trivial.
  apply mem_In in E. now apply H in Hx.
Qed.

Lemma first_occurrences_NoDup_id l :
  NoDup l ->
  forall seen, (forall x, In x l -> mem x seen = false) ->
               first_occurrences seen l = l.
Proof.
  induction 1 as [|x l Hx Hl IH]; intros seen Hs; cbn; trivial.
  rewrite (Hs x (or_introl eq_refl)). f_equal. apply IH.
  intros y Hy. rewrite mem_app, (Hs y (or_intror Hy)). cbn.
  rewrite orb_false_r. apply String.eqb_neq. intros ->. contradiction.
Qed.

Lemma unique_NoDup_id l : NoDup l -> unique l = l.
Proof.
  intros H. rewrite unique_first_occurrences.
  now apply first_occurrences_NoDup_id.
Qed.

(** X9. Deduplication never lengthens the list, leaves a list without
    repeats as it is and only such a list, and changes nothing when it is
    applied a second time; of an empty list it makes the empty list. *)
Theorem deduplication_laws (questions : list string) :
  List.length (unique questions) <= List.length questions
  /\ (unique questions = questions <-> NoDup questions)
  /\ unique (unique questions) = unique questions
  /\ (unique questions = [] <-> questions = []).
Proof.
  repeat split.
  - rewrite unique_first_occurrences. apply first_occurrences_length.
  - intros <-. apply unique_NoDup.
  - apply unique_NoDup_id.
  - apply unique_NoDup_id, unique_NoDup.
  - now apply unique_nil.
  - now apply unique_nil.
Qed.

(** X7. Rendering never raises: every template of the catalog has the
    fields it is given and no other.  For every fact set the six loops
    leave the questions of the functions (each followed by its arguments
    question when it has arguments), then those of the variables, loops,
    conditionals, imports and docstrings, one for each record. *)
Theorem rendering_never_raises (a : fact_set) :
  exists questions,
    candidate_questions a = ret questions
    /\ questions
       = flat_map questions_of_function (functions a)
         ++ map (fun var => variable_question (var_name var) (var_lineno var))
                (variables a)
         ++ map (fun loop => loop_question (loop_lineno loop)) (loops a)
         ++ map (fun cond => conditional_question (cond_lineno cond))
                (conditionals a)
         ++ map (fun imp => import_question (imp_name imp)) (imports a)
         ++ map docstring_question (docstrings a)
    /\ List.length questions
       = list_sum (map questions_per_function (functions a))
         + List.length (variables a) + List.length (loops a)
         + List.length (conditionals a) + List.length (imports a)
         + List.length (docstrings a).
Proof.
  exists (rendered_questions a). split; [apply candidate_questions_eq|].
  split; [reflexivity|].
  unfold rendered_questions. rewrite !length_app, !length_map.
  assert (H : List.length (flat_map questions_of_function (functions a))
              = list_sum (map questions_per_function (functions a))).
  { induction (functions a) as [|f fs IH]; trivial.
    cbn [flat_map map list_sum]. rewrite length_app, IH. f_equal.
    unfold questions_of_function, questions_per_function.
    now destruct (fn_args f). }
  lia.
Qed.

(** X12. Within a template, different values give different questions:
    the four templates with one field are injective, and the two with a
    name and a line are injective in the line for a given name and in the
    name for a given line. *)
Theorem questions_tell_values_apart :
  (forall lineno lineno', loop_question lineno = loop_question lineno'
                          <-> lineno = lineno')
  /\ (forall lineno lineno',
         conditional_question lineno = conditional_question lineno'
         <-> lineno = lineno')
  /\ (forall name name', import_question name = import_question name'
                         <-> name = name')
  /\ (forall name name',
         function_args_question name = function_args_question name'
         <-> name = name')
  /\ (forall doc doc', docstring_question doc = docstring_question doc'
                       <-> doc = doc')
  /\ (forall name lineno lineno',
         variable_question name lineno = variable_question name lineno'
         <-> lineno = lineno')
  /\ (forall name name' lineno,
         variable_question name lineno = variable_question name' lineno
         <-> name = name')
  /\ (forall name lineno lineno',
         function_question name lineno = function_question name lineno'
         <-> lineno = lineno')
  /\ (forall name name' lineno,
         function_question name lineno = function_question name' lineno
         <-> name = name').
Proof.
  repeat split; try (intros ->; reflexivity); intros H.
  - apply append_inv_head, append_inv_tail in H. now apply str_int_inj.
  - apply append_inv_head, append_inv_tail in H. now apply str_int_inj.
  - now apply append_inv_head, append_inv_tail in H.
  - now apply append_inv_head, append_inv_tail in H.
  - now apply append_inv_head, append_inv_tail in H.
  - unfold variable_question in H.
    apply append_inv_head, append_inv_head, append_inv_head, append_inv_tail in H.
    now apply str_int_inj.
  - unfold variable_question in H.
    now apply append_inv_head, append_inv_tail in H.
  - unfold function_question in H.
    apply append_inv_head, append_inv_head, append_inv_head, append_inv_tail in H.
    now apply str_int_inj.
  - unfold function_question in H.
    now apply append_inv_head, append_inv_tail in H.
Qed.

Lemma rendered_apart keys keys' l l' :
  Forall (rendered_from keys) l ->
  Forall (rendered_from keys') l' ->
  (forall key, In key keys -> ~ In key keys') ->
  forall x, In x l' -> ~ In x l.
Proof.
  intros Hl Hl' Hk x Hx' Hx.
  rewrite Forall_forall in Hl, Hl'.
  destruct (Hl x Hx) as (k & kw & Hin & Hr).
  destruct (Hl' x Hx') as (k' & kw' & Hin' & Hr').
  pose proof (rendered_same_template _ _ _ _ _ Hr Hr') as ->.
  now apply (Hk k').
Qed.

Lemma Forall_rendered_map {A} key (f : A -> string) (kw : A -> kwargs) l :
  (forall x, render key (kw x) = ret (f x)) ->
  Forall (rendered_from [key]) (map f l).
Proof.
  intros H. apply Forall_forall. intros q Hq. apply in_map_iff in Hq.
  destruct Hq as (x & <- & _). exists key, (kw x). split; [now left | apply H].
Qed.

Lemma Forall_rendered_weaken keys keys' l :
  incl keys keys' -> Forall (rendered_from keys) l -> Forall (rendered_from keys') l.
Proof.
  intros Hi. apply Forall_impl. intros q (k & kw & Hk & Hr).
  exists k, kw. auto.
Qed.

Lemma Forall_rendered_functions fs :
  Forall (rendered_from ["function"; "function_args"])
         (flat_map questions_of_function fs).
Proof.
  apply Forall_forall. intros q Hq. apply in_flat_map in Hq.
  destruct Hq as (f & _ & Hq). unfold questions_of_function in Hq.
  destruct Hq as [<-|Hq].
  - exists "function",
      [("name", fn_name f); ("lineno", str_int (fn_lineno f))].
    split; [now left | reflexivity].
  - destruct (fn_args f); [contradiction|]. destruct Hq as [<-|[]].
    exists "function_args", [("name", fn_name f)].
    split; [right; now left | reflexivity].
Qed.

(** X13. The deduplicated list is made of the deduplicated questions of the
    functions, then those of the variables, of the loops, of the
    conditionals, of the imports and of the docstrings: a question is
    removed only as the repeat of an earlier question of its own
    category. *)
Theorem pool_by_category (a : fact_set) :
  exists questions,
    candidate_questions a = ret questions
    /\ unique questions
       = unique (flat_map questions_of_function (functions a))
         ++ unique (map (fun var => variable_question (var_name var) (var_lineno var))
                        (variables a))
         ++ unique (map (fun loop => loop_question (loop_lineno loop)) (loops a))
         ++ unique (map (fun cond => conditional_question (cond_lineno cond))
                        (conditionals a))
         ++ unique (map (fun imp => import_question (imp_name imp)) (imports a))
         ++ unique (map docstring_question (docstrings a)).
Proof.
  exists (rendered_questions a). split; [apply candidate_questions_eq|].
  unfold rendered_questions.
  pose proof (Forall_rendered_functions (functions a)) as HF.
  pose proof (Forall_rendered_map "variable"
                (fun var => variable_question (var_name var) (var_lineno var))
                (fun var => [("name", var_name var);
                             ("lineno", str_int (var_lineno var))])
                (variables a) (fun _ => eq_refl)) as HV.
  pose proof (Forall_rendered_map "loop"
                (fun loop => loop_question (loop_lineno loop))
                (fun loop => [("lineno", str_int (loop_lineno loop))])
                (loops a) (fun _ => eq_refl)) as HL.
  pose proof (Forall_rendered_map "conditional"
                (fun cond => conditional_question (cond_lineno cond))
                (fun cond => [("lineno", str_int (cond_lineno cond))])
                (conditionals a) (fun _ => eq_refl)) as HC.
  pose proof (Forall_rendered_map "import"
                (fun imp => import_question (imp_name imp))
                (fun imp => [("name", imp_name imp)])
                (imports a) (fun _ => eq_refl)) as HI.
  pose proof (Forall_rendered_map "docstring" docstring_question
                (fun doc => [("doc", doc)])
                (docstrings a) (fun _ => eq_refl)) as HD.
  assert (H5 : Forall (rendered_from ["docstring"])
                 (map docstring_question (docstrings a))) by exact HD.
  assert (H4 : Forall (rendered_from ["import"; "docstring"])
                 (map (fun imp => import_question (imp_name imp)) (imports a)
                  ++ map docstring_question (docstrings a))).
  { apply Forall_app. split; eapply Forall_rendered_weaken; eauto;
      intros k [<-|[]]; cbn; auto. }
  assert (H3 : Forall (rendered_from ["conditional"; "import"; "docstring"])
                 (map (fun cond => conditional_question (cond_lineno cond))
                      (conditionals a)
                  ++ map (fun imp => import_question (imp_name imp)) (imports a)
                  ++ map docstring_question (docstrings a))).
  { apply Forall_app. split; eapply Forall_rendered_weaken; eauto;
      intros k Hk; cbn in *; intuition. }
  assert (H2 : Forall (rendered_from ["loop"; "conditional"; "import"; "docstring"])
                 (map (fun loop => loop_question (loop_lineno loop)) (loops a)
                  ++ map (fun cond => conditional_question (cond_lineno cond))
                         (conditionals a)
                  ++ map (fun imp => import_question (imp_name imp)) (imports a)
                  ++ map docstring_question (docstrings a))).
  { apply Forall_app. split; eapply Forall_rendered_weaken; eauto;
      intros k Hk; cbn in *; intuition. }
  assert (H1 : Forall (rendered_from ["variable"; "loop"; "conditional"; "import";
                                      "docstring"])
                 (map (fun var => variable_question (var_name var) (var_lineno var))
                      (variables a)
                  ++ map (fun loop => loop_question (loop_lineno loop)) (loops a)
                  ++ map (fun cond => conditional_question (cond_lineno cond))
                         (conditionals a)
                  ++ map (fun imp => import_question (imp_name imp)) (imports a)
                  ++ map docstring_question (docstrings a))).
  { apply Forall_app. split; eapply Forall_rendered_weaken; eauto;
      intros k Hk; cbn in *; intuition. }
  rewrite (unique_app_apart _ _ (rendered_apart _ _ _ _ HF H1
             ltac:(intros k Hk Hk'; cbn in *; intuition (subst; discriminate)))).
  rewrite (unique_app_apart _ _ (rendered_apart _ _ _ _ HV H2
             ltac:(intros k Hk Hk'; cbn in *; intuition (subst; discriminate)))).
  rewrite (unique_app_apart _ _ (rendered_apart _ _ _ _ HL H3
             ltac:(intros k Hk Hk'; cbn in *; intuition (subst; discriminate)))).
  rewrite (unique_app_apart _ _ (rendered_apart _ _ _ _ HC H4
             ltac:(intros k Hk Hk'; cbn in *; intuition (subst; discriminate)))).
  rewrite (unique_app_apart _ _ (rendered_apart _ _ _ _ HI H5
             ltac:(intros k Hk Hk'; cbn in *; intuition (subst; discriminate)))).
  reflexivity.
Qed.

(** ** More on the answer *)

Section Outcomes.

Context {L : Library}.

Lemma choice_drawn seq g i g' q :
  randbelow g (List.length seq) = (i, g') ->
  nth_error seq i = Some q ->
  choice seq g = (ret q, g').
Proof.
  intros Hr Hq. destruct seq as [|x seq]; [now destruct i|].
  unfold choice, getitem_list. now rewrite Hr, Hq.
Qed.

(** X10. With a parser that gives every [import] statement a name and a
    random generator that draws within its range, [generate_questions]
    ends in one of three ways.  The snippet does not parse: it returns the
    one-element list with the message, and draws nothing.  The snippet
    parses and has no fact: it raises the [IndexError] of [random.choice],
    and draws nothing.  The snippet has a fact: it draws once and returns
    the entry of the deduplicated list at the index drawn. *)
Theorem generate_questions_outcomes {R : RandomInRange L} s g :
  (forall tree, parse s = inr tree -> imports_listed tree) ->
  (exists e,
      parse s = inl e
      /\ generate_questions s g
         = (ret (VList [("Error analyzing code: " ++ str_exn e)%string]), g))
  \/ (exists a,
        analyze_code s = Facts a
        /\ has_fact a = false
        /\ generate_questions s g
           = (raise (IndexError "Cannot choose from an empty sequence"), g))
  \/ (exists a questions q,
        analyze_code s = Facts a
        /\ has_fact a = true
        /\ candidate_questions a = ret questions
        /\ nth_error (unique questions)
             (fst (randbelow g (List.length (unique questions)))) = Some q
        /\ generate_questions s g
           = (ret (VStr q), snd (randbelow g (List.length (unique questions))))).
Proof.
  intros Hw. destruct (parse s) as [e|tree] eqn:Hp.
  - left. exists e. split; trivial.
    apply generate_questions_Error. unfold analyze_code. now rewrite Hp.
  - right. destruct (analyze_code_succeeds _ _ Hp (Hw _ eq_refl)) as (a & Ha).
    rewrite (generate_questions_Facts _ _ _ Ha).
    destruct (has_fact a) eqn:Hf.
    + right. exists a, (rendered_questions a).
      assert (Hne : unique (rendered_questions a) <> []).
      { rewrite unique_nil, rendered_questions_nil, Hf. discriminate. }
      pose proof (randbelow_lt g (List.length (unique (rendered_questions a)))) as Hlt.
      destruct (randbelow g (List.length (unique (rendered_questions a))))
        as [i g'] eqn:Hr.
      cbn [fst snd] in *.
      destruct (nth_error (unique (rendered_questions a)) i) as [q|] eqn:Hq.
      * exists q. repeat split; trivial; [apply candidate_questions_eq|].
        now rewrite (choice_drawn _ _ _ _ _ Hr Hq).
      * apply nth_error_None in Hq.
        destruct (unique (rendered_questions a)); [congruence | cbn in *; lia].
    + left. exists a. repeat split; trivial.
      apply rendered_questions_nil in Hf. now rewrite Hf.
Qed.

(** X11. Every question of the deduplicated list can be the answer: it has
    an index below the length of the list, and [generate_questions] returns
    it whenever the generator draws that index. *)
Theorem every_question_can_be_drawn s a questions q :
  analyze_code s = Facts a ->
  candidate_questions a = ret questions ->
  In q (unique questions) ->
  exists i,
    i < List.length (unique questions)
    /\ forall g,
         fst (randbelow g (List.length (unique questions))) = i ->
         generate_questions s g
         = (ret (VStr q), snd (randbelow g (List.length (unique questions)))).
Proof.
  intros Ha Hq Hin. rewrite candidate_questions_eq in Hq. injection Hq as <-.
  apply In_nth_error in Hin. destruct Hin as (i & Hi).
  exists i. split; [apply nth_error_Some; congruence|].
  intros g Hg. rewrite (generate_questions_Facts _ _ _ Ha).
  destruct (randbelow g (List.length (unique (rendered_questions a))))
    as [j g'] eqn:Hr.
  cbn [fst snd] in *. subst j. now rewrite (choice_drawn _ _ _ _ _ Hr Hi).
Qed.

End Outcomes.

(** ** The route *)

Section RouteProperties.

Context {L : Library}.

Lemma dict_get_absent items key :
  (forall v, ~ In (key, v) items) -> dict_get items key = JNull.
Proof.
  induction items as [|[k v] items IH]; intros H; cbn; trivial.
  destruct (String.eqb_spec k key) as [->|_].
  - exfalso. apply (H v). now left.
  - apply IH. intros v' Hv'. apply (H v'). now right.
Qed.

Lemma generate_question_snippet items s g :
  dict_get items "code_snippet" = JStr s ->
  s <> EmptyString ->
  generate_question (ret (JObject items)) g
  = (let (question, g') := generate_questions s g in
     match question with
     | inr question =>
         ({| payload := [("question", question)]; status := 200 |}, g')
     | inl e =>
         ({| payload := [("error", VStr (str_exn e))]; status := 500 |}, g')
     end).
Proof.
  intros Hs Hne. unfold generate_question. cbn [bind ret body_get].
  rewrite Hs. cbn [truth generate_questions_of].
  apply String.eqb_neq in Hne. now rewrite Hne.
Qed.

(** X14. The route answers 400 exactly when the body is an object whose
    [code_snippet] is missing, null, the empty string or another value that
    is not truthy; the answer is then the error "No code snippet provided",
    and neither the parser nor the random generator is used. *)
Theorem missing_snippet_is_rejected (request_json : result body) (g : G) :
  (status (fst (generate_question request_json g)) = 400
   <-> exists items,
         request_json = ret (JObject items)
         /\ truth (dict_get items "code_snippet") = false)
  /\ (forall items,
        request_json = ret (JObject items) ->
        truth (dict_get items "code_snippet") = false ->
        generate_question request_json g
        = ({| payload := [("error", VStr "No code snippet provided")];
              status := 400 |}, g))
  /\ (forall items,
        (forall v, ~ In ("code_snippet", v) items) ->
        truth (dict_get items "code_snippet") = false).
Proof.
  split; [|split].
  - unfold generate_question. destruct request_json as [e|[items|type_name]];
      cbn [bind ret raise body_get].
    + split; [discriminate | intros (? & [=] & _)].
    + destruct (truth (dict_get items "code_snippet")) eqn:Ht; cbn [negb].
      * split; [|intros (? & [= <-] & ?); congruence].
        destruct (generate_questions_of _ g) as [[e|v] g']; discriminate.
      * split; [eauto | reflexivity].
    + split; [discriminate | intros (? & [=] & _)].
  - intros items -> Ht. unfold generate_question. cbn [bind ret body_get].
    now rewrite Ht.
  - intros items H. now rewrite dict_get_absent.
Qed.

(** X15. A snippet that does not parse is not answered as an error: the
    route answers 200, and the question of the answer is the one-element
    list holding "Error analyzing code: " and the message of the parser. *)
Theorem syntax_error_is_answered_200 items s e g :
  dict_get items "code_snippet" = JStr s ->
  s <> EmptyString ->
  parse s = inl e ->
  generate_question (ret (JObject items)) g
  = ({| payload :=
          [("question", VList [("Error analyzing code: " ++ str_exn e)%string])];
        status := 200 |}, g).
Proof.
  intros Hs Hne Hp. rewrite (generate_question_snippet _ _ _ Hs Hne).
  rewrite (generate_questions_Error s (str_exn e)); trivial.
  unfold analyze_code. now rewrite Hp.
Qed.

(** X16. A snippet that parses and has no fact is answered 500 with the
    message of the [IndexError] of [random.choice]. *)
Theorem empty_pool_is_answered_500 items s tree a g :
  dict_get items "code_snippet" = JStr s ->
  s <> EmptyString ->
  parse s = inr tree ->
  analyze_code s = Facts a ->
  has_fact a = false ->
  generate_question (ret (JObject items)) g
  = ({| payload := [("error", VStr "Cannot choose from an empty sequence")];
        status := 500 |}, g).
Proof.
  intros Hs Hne _ Ha Hf. rewrite (generate_question_snippet _ _ _ Hs Hne).
  rewrite (generate_questions_Facts _ _ _ Ha).
  apply rendered_questions_nil in Hf. now rewrite Hf.
Qed.

(** X17. A snippet that parses and has a node that the analyzer records is
    answered 200 with one question of its deduplicated list, whatever the
    random generator draws within its range. *)
Theorem snippet_with_a_fact_is_answered_200 {R : RandomInRange L} items s tree g :
  dict_get items "code_snippet" = JStr s ->
  s <> EmptyString ->
  parse s = inr tree ->
  imports_listed tree ->
  (exists n, descendant tree n
             /\ (is_fact_node n = true \/ docstring_of n <> [])) ->
  exists a questions q g',
    analyze_code s = Facts a
    /\ candidate_questions a = ret questions
    /\ In q (unique questions)
    /\ generate_question (ret (JObject items)) g
       = ({| payload := [("question", VStr q)]; status := 200 |}, g').
Proof.
  intros Hs Hne Hp Hw (n & Hn & Hc).
  destruct (analyze_code_succeeds _ _ Hp Hw) as (a & Ha).
  pose proof (analyze_code_tree _ _ _ Hp Ha) as Ht.
  pose proof (fact_node_has_fact _ _ _ Ht Hn Hc) as Hf.
  assert (Hq : unique (rendered_questions a) <> []).
  { rewrite unique_nil, rendered_questions_nil, Hf. discriminate. }
  destruct (choice_In _ g Hq) as (q & g' & Hch & Hin).
  exists a, (rendered_questions a), q, g'.
  repeat split; trivial; [apply candidate_questions_eq|].
  rewrite (generate_question_snippet _ _ _ Hs Hne).
  rewrite (generate_questions_Facts _ _ _ Ha), Hch. reflexivity.
Qed.

(** X18. Whatever the request, the route answers: the status is 200, 400
    or 500 and the payload has one entry, ["question"] with status 200 and
    ["error"] otherwise.  When reading the body raises, or when the body is
    not an object, the answer is 500 with the message of the exception, and
    the random generator is not used. *)
Theorem route_always_answers (request_json : result body) (g : G) :
  (exists key v,
      payload (fst (generate_question request_json g)) = [(key, v)]
      /\ ((status (fst (generate_question request_json g)) = 200
           /\ key = "question")
          \/ ((status (fst (generate_question request_json g)) = 400
               \/ status (fst (generate_question request_json g)) = 500)
              /\ key = "error")))
  /\ (forall e,
        request_json = raise e ->
        generate_question request_json g
        = ({| payload := [("error", VStr (str_exn e))]; status := 500 |}, g))
  /\ (forall type_name,
        request_json = ret (JNotObject type_name) ->
        generate_question request_json g
        = ({| payload :=
                [("error",
                  VStr ("'" ++ type_name ++ "' object has no attribute 'get'"))];
              status := 500 |}, g)).
Proof.
  split; [|split].
  - unfold generate_question. destruct request_json as [e|[items|type_name]];
      cbn [bind ret raise body_get].
    + do 2 eexists. split; [reflexivity|]. right. split; [now right | reflexivity].
    + destruct (truth (dict_get items "code_snippet")); cbn [negb].
      * destruct (generate_questions_of _ g) as [[e|v] g']; cbn [fst payload status];
          do 2 eexists; (split; [reflexivity|]).
        -- right. split; [now right | reflexivity].
        -- left. split; reflexivity.
      * do 2 eexists. split; [reflexivity|]. right. split; [now left | reflexivity].
    + do 2 eexists. split; [reflexivity|]. right. split; [now right | reflexivity].
  - intros e ->. reflexivity.
  - intros type_name ->. reflexivity.
Qed.

End RouteProperties.

(** ** The further properties on a snippet with every kind of fact *)

Import Tour.

Lemma tour_random_in_range : RandomInRange tour_library.
Proof. intros g n Hn. cbn. apply Nat.mod_upper_bound. lia. Qed.

Lemma total_imports_listed : imports_listed total_tree.
Proof. intros lineno H. absent_from_walk H. Qed.

Lemma variable_records_witness :
  exists a,
    analyze_code (L := tour_library) total_snippet = Facts a
    /\ (forall r,
          In r (variables a) <->
          exists id ctx lineno,
            descendant total_tree (Name id ctx lineno)
            /\ r = {| var_name := id; var_lineno := lineno |})
    /\ List.length (variables a) = List.length (filter is_Name (walk total_tree)).
Proof.
  apply (variable_records (L := tour_library) total_snippet total_tree).
  - reflexivity.
  - intros lineno H. absent_from_walk H.
Defined.

Lemma loop_records_witness :
  exists a,
    analyze_code (L := tour_library) total_snippet = Facts a
    /\ (forall lineno,
          In {| loop_lineno := lineno |} (loops a) <->
          (exists target iter body orelse,
              descendant total_tree (For target iter body orelse lineno))
          \/ (exists test body orelse,
                descendant total_tree (While test body orelse lineno)))
    /\ List.length (loops a) = List.length (filter is_loop (walk total_tree)).
Proof.
  apply (loop_records (L := tour_library) total_snippet total_tree).
  - reflexivity.
  - intros lineno H. absent_from_walk H.
Defined.

Lemma conditional_records_witness :
  exists a,
    analyze_code (L := tour_library) total_snippet = Facts a
    /\ (forall r,
          In r (conditionals a) <->
          exists test body orelse lineno,
            descendant total_tree (If test body orelse lineno)
            /\ r = {| cond_lineno := lineno |})
    /\ List.length (conditionals a) = List.length (filter is_If (walk total_tree))
    /\ (forall test body test' body' orelse' lineno lineno',
          descendant total_tree
            (If test body [If test' body' orelse' lineno'] lineno) ->
          In {| cond_lineno := lineno |} (conditionals a)
          /\ In {| cond_lineno := lineno' |} (conditionals a)).
Proof.
  apply (conditional_records (L := tour_library) total_snippet total_tree).
  - reflexivity.
  - intros lineno H. absent_from_walk H.
Defined.

Lemma one_record_per_node_witness :
  exists a,
    analyze_code (L := tour_library) imports_snippet = Facts a
    /\ List.length (imports a) = List.length (filter is_Import (walk imports_tree))
    /\ List.length (functions a) + List.length (variables a)
       + List.length (loops a) + List.length (conditionals a)
       + List.length (imports a)
       = List.length (filter is_fact_node (walk imports_tree))
    /\ List.length (functions a) + List.length (variables a)
       + List.length (loops a) + List.length (conditionals a)
       + List.length (imports a)
       <= size imports_tree.
Proof.
  apply (one_record_per_node (L := tour_library) imports_snippet imports_tree).
  - reflexivity.
  - intros lineno H. absent_from_walk H.
Defined.

Lemma records_by_depth_witness :
  exists a,
    analyze_code (L := tour_library) total_snippet = Facts a
    /\ walk total_tree = by_depth total_tree
    /\ functions a = flat_map function_of (by_depth total_tree)
    /\ variables a = flat_map variable_of (by_depth total_tree)
    /\ loops a = flat_map loop_of (by_depth total_tree)
    /\ conditionals a = flat_map conditional_of (by_depth total_tree)
    /\ imports a = flat_map import_records (by_depth total_tree)
    /\ docstrings a = flat_map (docstring_of (L := tour_library)) (by_depth total_tree).
Proof.
  apply (records_by_depth (L := tour_library) total_snippet total_tree).
  - reflexivity.
  - intros lineno H. absent_from_walk H.
Defined.

Lemma docstring_records_witness :
  exists a,
    analyze_code (L := tour_library) total_snippet = Facts a
    /\ (forall doc,
          In doc (docstrings a) <->
          exists n text lineno lineno' rest,
            descendant total_tree n
            /\ documented_body n
               = Some (Expr (Constant (CStr text) lineno) lineno' :: rest)
            /\ cleandoc (Library := tour_library) text <> EmptyString
            /\ doc = strip (Library := tour_library)
                       (cleandoc (Library := tour_library) text))
    /\ List.length (docstrings a)
       <= List.length (filter is_Module (walk total_tree))
          + List.length (functions a).
Proof.
  apply (docstring_records (L := tour_library) total_snippet total_tree).
  - reflexivity.
  - intros lineno H. absent_from_walk H.
Defined.

Lemma one_question_one_template_witness : "loop" = "loop".
Proof.
  apply (one_question_one_template "loop" "loop"
           [("lineno", "4")] [("lineno", "4"); ("name", "x")]
           "What is the significance of the loop starting at line 4?");
    reflexivity.
Defined.

Lemma generate_questions_outcomes_witness :
  (exists e,
      parse (Library := tour_library) total_snippet = inl e
      /\ generate_questions (L := tour_library) total_snippet 3
         = (ret (VList [("Error analyzing code: " ++ str_exn e)%string]), 3))
  \/ (exists a,
        analyze_code (L := tour_library) total_snippet = Facts a
        /\ has_fact a = false
        /\ generate_questions (L := tour_library) total_snippet 3
           = (raise (IndexError "Cannot choose from an empty sequence"), 3))
  \/ (exists a questions q,
        analyze_code (L := tour_library) total_snippet = Facts a
        /\ has_fact a = true
        /\ candidate_questions a = ret questions
        /\ nth_error (unique questions)
             (fst (randbelow (Library := tour_library) 3
                     (List.length (unique questions)))) = Some q
        /\ generate_questions (L := tour_library) total_snippet 3
           = (ret (VStr q),
              snd (randbelow (Library := tour_library) 3
                     (List.length (unique questions))))).
Proof.
  apply (generate_questions_outcomes (L := tour_library)
           (R := tour_random_in_range) total_snippet 3).
  intros tree H. injection H as <-. intros lineno H. absent_from_walk H.
Defined.

(** The fact set of [total_snippet]. *)
Lemma total_analysis :
  analyze_code (L := tour_library) total_snippet = Facts total_facts.
Proof. reflexivity. Qed.

Lemma every_question_can_be_drawn_witness :
  exists i,
    i < List.length (unique (rendered_questions total_facts))
    /\ forall g,
         fst (randbelow (Library := tour_library) g
                (List.length (unique (rendered_questions total_facts)))) = i ->
         generate_questions (L := tour_library) total_snippet g
         = (ret (VStr "What is the significance of the loop starting at line 4?"),
            snd (randbelow (Library := tour_library) g
                   (List.length (unique (rendered_questions total_facts))))).
Proof.
  apply (every_question_can_be_drawn (L := tour_library) total_snippet
           total_facts (rendered_questions total_facts)
           "What is the significance of the loop starting at line 4?").
  - reflexivity.
  - reflexivity.
  - vm_compute. tauto.
Defined.

Lemma syntax_error_is_answered_200_witness :
  generate_question (L := tour_library)
    (ret (JObject [("code_snippet", JStr "def f(:")])) 0
  = ({| payload :=
          [("question",
            VList ["Error analyzing code: invalid syntax (<unknown>, line 1)"])];
        status := 200 |}, 0).
Proof.
  apply (syntax_error_is_answered_200 (L := tour_library)
           [("code_snippet", JStr "def f(:")] "def f(:"
           (SyntaxError "invalid syntax (<unknown>, line 1)") 0).
  - reflexivity.
  - discriminate.
  - reflexivity.
Defined.

Lemma empty_pool_is_answered_500_witness :
  generate_question (L := tour_library)
    (ret (JObject [("code_snippet", JStr Samples.literal_snippet)])) 0
  = ({| payload := [("error", VStr "Cannot choose from an empty sequence")];
        status := 500 |}, 0).
Proof.
  apply (empty_pool_is_answered_500 (L := tour_library)
           [("code_snippet", JStr Samples.literal_snippet)]
           Samples.literal_snippet Samples.literal_tree Samples.no_facts 0).
  - reflexivity.
  - discriminate.
  - reflexivity.
  - reflexivity.
  - reflexivity.
Defined.

Lemma snippet_with_a_fact_is_answered_200_witness :
  exists a questions q g',
    analyze_code (L := tour_library) total_snippet = Facts a
    /\ candidate_questions a = ret questions
    /\ In q (unique questions)
    /\ generate_question (L := tour_library)
         (ret (JObject [("lang", JStr "python"); ("code_snippet", JStr total_snippet)]))
         0
       = ({| payload := [("question", VStr q)]; status := 200 |}, g').
Proof.
  apply (snippet_with_a_fact_is_answered_200 (L := tour_library)
           (R := tour_random_in_range)
           [("lang", JStr "python"); ("code_snippet", JStr total_snippet)]
           total_snippet total_tree 0).
  - reflexivity.
  - discriminate.
  - reflexivity.
  - intros lineno H. absent_from_walk H.
  - exists total_def. split; [child_of_root | now left].
Defined.
